(** * The SECL rule set: a shallow embedding of
    [pkg/security/secl/rules/ruleset.go]

    A [RuleSet] compiles rule definitions into evaluators, indexes them in
    per-event-type buckets, evaluates events against the bucket of their
    type, and looks for discarders when nothing matched.

    Go maps are [gmap]s, slices are lists, [*eval.Rule] pointers are
    addresses into an explicit heap (the same rule object is reachable from
    its bucket and from the rule table), and the expression compiler of
    package [eval] is an interface the development is parametric in. *)

From Stdlib Require Import Ascii.
From stdpp Require Import base option list strings gmap fin_maps.

(** ** Identifiers

    [MacroID], [RuleID], [eval.Field] and [eval.EventType] are all aliases of
    Go's [string]. *)

Abbreviation MacroID := string (only parsing).
Abbreviation RuleID := string (only parsing).
Abbreviation Field := string (only parsing).
Abbreviation EventType := string (only parsing).

(** An address of a rule object ([*eval.Rule]). *)
Abbreviation loc := nat (only parsing).

(** A [*Policy]; the struct behind it is declared outside this file and is
    never dereferenced here, so only the (nullable) reference is kept. *)
Abbreviation PolicyRef := (option nat) (only parsing).

(** ** Definitions *)

(** [MacroDefinition] holds the definition of a macro. *)
Record MacroDefinition := mkMacroDefinition {
  md_ID : MacroID;
  md_Expression : string
}.

(** [RuleDefinition] holds the definition of a rule. *)
Record RuleDefinition := mkRuleDefinition {
  rd_ID : RuleID;
  rd_Version : string;
  rd_Expression : string;
  rd_Description : string;
  rd_Tags : gmap string string;
  rd_Policy : PolicyRef
}.

(** ** Errors

    The sentinel errors and the two load-error wrappers of the package,
    [errors.New]/[errors.Wrap] of [github.com/pkg/errors], and the errors
    that come out of the expression compiler, known here by their message
    only. *)
Inductive Error : Type :=
| ErrInternalIDConflict
| ErrDefinitionIDConflict
| ErrRuleWithoutEvent
| ErrRuleWithMultipleEvents
| ErrEventTypeNotEnabled
| ErrRuleLoad (d : RuleDefinition) (err : Error)
| ErrMacroLoad (d : MacroDefinition) (err : Error)
| ErrNoEventTypeBucket (eventType : EventType)
| errors_New (msg : string)
| errors_Wrap (err : Error) (msg : string)
| ErrEval (msg : string).

(** A Go [(T, error)] result whose value is only meaningful without error. *)
Inductive result (A : Type) : Type :=
| Ok (a : A)
| Err (e : Error).
Arguments Ok {A} a.
Arguments Err {A} e.

(** [*multierror.Error]: the nil pointer is the empty list, and
    [multierror.Append] adds one error at the end. *)
Abbreviation multierror := (list Error) (only parsing).

Definition multierror_Append (result : multierror) (err : Error) : multierror :=
  result ++ [err].

(** ** [strings.ReplaceAll]

    All non-overlapping instances of [old] in [s], from the left, are
    replaced by [new].  [skip] counts the characters of a matched instance
    that are still to be dropped.  With an empty [old], [new] goes before
    every character and at the end. *)
Fixpoint ReplaceAll_from (skip : nat) (s old new : string) : string :=
  match s with
  | EmptyString => EmptyString
  | String c s' =>
    match skip with
    | S k => ReplaceAll_from k s' old new
    | O =>
      if String.prefix old s
      then new +:+ ReplaceAll_from (String.length old - 1) s' old new
      else String c (ReplaceAll_from 0 s' old new)
    end
  end.

Fixpoint intersperse_before (new s : string) : string :=
  match s with
  | EmptyString => new
  | String c s' => new +:+ String c (intersperse_before new s')
  end.

Definition ReplaceAll (s old new : string) : string :=
  match old with
  | EmptyString => intersperse_before new s
  | _ => ReplaceAll_from 0 s old new
  end.

(** The key [AddPolicyVersion] is said to use: the file name with every
    ['.'] turned into ['_']. *)
Fixpoint dotsToUnderscores (s : string) : string :=
  match s with
  | EmptyString => EmptyString
  | String c s' =>
    String (if Ascii.eqb c "."%char then "_"%char else c) (dotsToUnderscores s')
  end.

(** ** The evaluator binding (package [eval])

    The types the compiler works on.  [RuleState] and [MacroState] are the
    unexported parts of [eval.Rule] and [eval.Macro] (syntax tree, evaluator,
    partials); their zero values are what a struct literal that only sets
    [ID], [Expression] and [Tags] leaves there. *)
Class EvalTypes := {
  Event : Type;
  Model : Type;
  ConstantValue : Type;
  VariableValue : Type;
  RuleState : Type;
  MacroState : Type;
  RuleState_zero : RuleState;
  MacroState_zero : MacroState
}.

Section RuleSet.

Context `{ET : EvalTypes}.

(** [eval.Macro]. *)
Record eval_Macro := mk_eval_Macro {
  em_ID : MacroID;
  em_Expression : string;
  em_state : MacroState
}.

(** [eval.Rule]. *)
Record eval_Rule := mk_eval_Rule {
  er_ID : RuleID;
  er_Expression : string;
  er_Tags : list string;
  er_state : RuleState
}.

#[export] Instance eval_Rule_inhabited : Inhabited eval_Rule :=
  populate (mk_eval_Rule "" "" [] RuleState_zero).

(** [eval.Opts]. *)
Record eval_Opts := mk_eval_Opts {
  eo_Constants : gmap string ConstantValue;
  eo_Variables : gmap string VariableValue;
  eo_Macros : gmap MacroID eval_Macro;
  eo_LegacyAttributes : gmap Field Field
}.

(** [eval.Context]: the scratch state of one evaluation, bound to the event
    it was acquired for. *)
Record Context := mk_Context {
  ctx_Object : Event
}.

(** What package [rules] consumes from [eval] and from the event source.
    Methods with a pointer receiver that compile something ([Parse],
    [GenEvaluator], [GenPartials]) return the new unexported state of their
    receiver together with their error. *)
Class EvalOps := {
  Event_GetType : Event → EventType;
  Event_GetFieldEventType : Event → Field → EventType * option Error;
  Macro_Parse : eval_Macro → MacroState * option Error;
  Macro_GenEvaluator : Model → eval_Opts → eval_Macro → MacroState * option Error;
  Rule_Parse : eval_Rule → RuleState * option Error;
  Rule_GenEvaluator : Model → eval_Opts → eval_Rule → RuleState * option Error;
  Rule_GenPartials : eval_Rule → RuleState * option Error;
  (** the error of [rule.GetEventTypes()], if it has one *)
  Rule_GetEventTypes_err : eval_Rule → option Error;
  (** [rule.GetEvaluator().EventTypes] *)
  Evaluator_EventTypes : eval_Rule → list EventType;
  (** [rule.GetEvaluator().GetFields()] *)
  Evaluator_GetFields : eval_Rule → list Field;
  (** [rule.GetEvaluator().Eval(ctx)] *)
  Evaluator_Eval : eval_Rule → Context → bool;
  Rule_PartialEval : eval_Rule → Context → Field → bool * option Error
}.

Context `{EO : EvalOps}.

(** Modelled from the spec: [eval.Rule.GetEventTypes] is not part of this
    file.  The rule's event types are "the evaluator's referenced event
    types"; whether and when the call fails is left to the binding. *)
Definition Rule_GetEventTypes (rule : eval_Rule) : list EventType * option Error :=
  match Rule_GetEventTypes_err rule with
  | Some err => ([], Some err)
  | None => (Evaluator_EventTypes rule, None)
  end.

(** ** Rules, macros, buckets *)

(** The heap of rule objects: [h !!! p] is the object behind pointer [p]. *)
Abbreviation Heap := (list eval_Rule) (only parsing).

Definition alloc (h : Heap) (r : eval_Rule) : Heap * loc :=
  (h ++ [r], length h).

(** [Macro] describes a macro of a ruleset. *)
Record Macro := mkMacro {
  Macro_Macro : eval_Macro;
  Macro_Definition : MacroDefinition
}.

(** [Rule] describes a rule of a ruleset: the embedded [*eval.Rule] and the
    definition it was made from. *)
Record Rule := mkRule {
  Rule_Rule : loc;
  Rule_Definition : RuleDefinition
}.

(** A registered [RuleSetListener], known by its identity; what it does when
    called is outside this package. *)
Abbreviation Listener := nat (only parsing).

(** The calls made on the listeners.  [EventDiscarderFound] also receives the
    rule set itself, which is always the receiver of the operation that makes
    the call. *)
Inductive ListenerCall : Type :=
| RuleMatch (l : Listener) (rule : Rule) (event : Event)
| EventDiscarderFound (l : Listener) (event : Event) (field : Field)
    (eventType : EventType).

(** [Opts] defines rules set options.  [SupportedDiscarders] is a map that
    may be nil; the logger is left out. *)
Record Opts := mkOpts {
  Opts_Opts : eval_Opts;
  SupportedDiscarders : option (gmap Field bool);
  ReservedRuleIDs : list RuleID;
  EventTypeEnabled : gmap EventType bool
}.

(** [RuleBucket]: the rules of one event type and the fields they use. *)
Record RuleBucket := mkRuleBucket {
  rb_rules : list Rule;
  rb_fields : list Field
}.

(** Modelled from the spec: [eval.ContextPool] is not part of this file.  It
    is "a pool of reusable evaluation contexts"; an operation acquires one
    context bound to its event and releases it on return.  The pool is known
    by the number of idle contexts it holds. *)
Record ContextPool := mkContextPool {
  pool_idle : nat
}.

Definition NewContextPool : ContextPool := mkContextPool 0.

Definition ContextPool_Get (p : ContextPool) (event : Event) : ContextPool * Context :=
  (mkContextPool (pred (pool_idle p)), mk_Context event).

Definition ContextPool_Put (p : ContextPool) (ctx : Context) : ContextPool :=
  mkContextPool (S (pool_idle p)).

(** [RuleSet] holds a list of rules, grouped in bucket. *)
Record RuleSet := mkRuleSet {
  opts : Opts;
  loadedPolicies : gmap string string;
  eventRuleBuckets : gmap EventType RuleBucket;
  rules : gmap RuleID Rule;
  macros : gmap RuleID Macro;
  model : Model;
  eventCtor : unit → Event;
  listeners : list Listener;
  fields : list string;
  pool : ContextPool
}.

Definition set_opts (o : Opts) (rs : RuleSet) : RuleSet :=
  mkRuleSet o (loadedPolicies rs) (eventRuleBuckets rs) (rules rs) (macros rs)
    (model rs) (eventCtor rs) (listeners rs) (fields rs) (pool rs).

Definition set_loadedPolicies (m : gmap string string) (rs : RuleSet) : RuleSet :=
  mkRuleSet (opts rs) m (eventRuleBuckets rs) (rules rs) (macros rs)
    (model rs) (eventCtor rs) (listeners rs) (fields rs) (pool rs).

Definition set_eventRuleBuckets (m : gmap EventType RuleBucket) (rs : RuleSet) : RuleSet :=
  mkRuleSet (opts rs) (loadedPolicies rs) m (rules rs) (macros rs)
    (model rs) (eventCtor rs) (listeners rs) (fields rs) (pool rs).

Definition set_rules (m : gmap RuleID Rule) (rs : RuleSet) : RuleSet :=
  mkRuleSet (opts rs) (loadedPolicies rs) (eventRuleBuckets rs) m (macros rs)
    (model rs) (eventCtor rs) (listeners rs) (fields rs) (pool rs).

Definition set_listeners (ls : list Listener) (rs : RuleSet) : RuleSet :=
  mkRuleSet (opts rs) (loadedPolicies rs) (eventRuleBuckets rs) (rules rs) (macros rs)
    (model rs) (eventCtor rs) ls (fields rs) (pool rs).

Definition set_fields (fs : list string) (rs : RuleSet) : RuleSet :=
  mkRuleSet (opts rs) (loadedPolicies rs) (eventRuleBuckets rs) (rules rs) (macros rs)
    (model rs) (eventCtor rs) (listeners rs) fs (pool rs).

Definition set_pool (p : ContextPool) (rs : RuleSet) : RuleSet :=
  mkRuleSet (opts rs) (loadedPolicies rs) (eventRuleBuckets rs) (rules rs) (macros rs)
    (model rs) (eventCtor rs) (listeners rs) (fields rs) p.

(** [NewOptsWithParams] initializes a new [Opts]. *)
Definition NewOptsWithParams (constants : gmap string ConstantValue)
    (variables : gmap string VariableValue)
    (supportedDiscarders : option (gmap Field bool))
    (eventTypeEnabled : gmap EventType bool) (reservedRuleIDs : list RuleID)
    (legacyAttributes : gmap Field Field) : Opts :=
  {| Opts_Opts := {| eo_Constants := constants; eo_Variables := variables;
                     eo_Macros := ∅; eo_LegacyAttributes := legacyAttributes |};
     SupportedDiscarders := supportedDiscarders;
     ReservedRuleIDs := reservedRuleIDs;
     EventTypeEnabled := eventTypeEnabled |}.

(** [NewRuleSet] returns a new ruleset for the specified data model. *)
Definition NewRuleSet (m : Model) (ctor : unit → Event) (o : Opts) : RuleSet :=
  {| opts := o; loadedPolicies := ∅; eventRuleBuckets := ∅; rules := ∅;
     macros := ∅; model := m; eventCtor := ctor; listeners := [];
     fields := []; pool := NewContextPool |}.

(** ** Field lists *)

(** The inner loop of [AddFields]: is [newField] one of [oldFields]? *)
Fixpoint hasField (oldFields : list Field) (newField : Field) : bool :=
  match oldFields with
  | [] => false
  | oldField :: rest =>
    if String.eqb oldField newField then true else hasField rest newField
  end.

(** One round of the outer loop of [AddFields]. *)
Definition addField (fs : list Field) (newField : Field) : list Field :=
  if hasField fs newField then fs else fs ++ [newField].

Definition mergeFields (fs newFields : list Field) : list Field :=
  foldl addField fs newFields.

(** [AddFields] merges the provided set of fields with the existing set of
    fields of the ruleset. *)
Definition AddFields (newFields : list Field) (rs : RuleSet) : RuleSet :=
  set_fields (mergeFields (fields rs) newFields) rs.

(** ** The rest of package [rules] that [ruleset.go] calls

    [bucket.go] and the approver types are not part of this file. *)
Class BucketOps := {
  FieldCapabilities : Type;
  Approvers : Type;
  Approvers_nil : Approvers;
  (** the error of [bucket.AddRule(rule)], if it has one *)
  RuleBucket_AddRule_err : Heap → RuleBucket → Rule → option Error;
  RuleBucket_GetApprovers :
    Heap → RuleBucket → Event → FieldCapabilities → Approvers * option Error
}.

Context `{BO : BucketOps}.

(** Modelled from the spec: [RuleBucket.AddRule] is not part of this file.
    The rule is inserted into the bucket, and its referenced fields are
    unioned into the bucket's field list the way they are into the global
    one ("dedup by exact string match, insertion order preserved, no
    reordering of existing entries").  When the call fails is left to
    [RuleBucket_AddRule_err]; a failed call leaves the bucket as it was. *)
Definition RuleBucket_AddRule (h : Heap) (rb : RuleBucket) (rule : Rule)
    : RuleBucket * option Error :=
  match RuleBucket_AddRule_err h rb rule with
  | Some err => (rb, Some err)
  | None =>
    ({| rb_rules := rb_rules rb ++ [rule];
        rb_fields := mergeFields (rb_fields rb)
                       (Evaluator_GetFields (h !!! Rule_Rule rule)) |}, None)
  end.

(** Modelled from the spec: [RuleBucket.GetRules] is not part of this file;
    it gives the rules of the bucket. *)
Definition RuleBucket_GetRules (rb : RuleBucket) : list Rule := rb_rules rb.

(** ** Stateful operations

    The mutating methods of [*RuleSet] run on the heap of rule objects and
    the rule set, and stop at their first [return nil, err]. *)
Definition St : Type := list eval_Rule * RuleSet.

Definition M (A : Type) : Type := St → St * result A.

#[export] Instance M_ret : MRet M := λ A a st, (st, Ok a).

#[export] Instance M_bind : MBind M := λ A B f m st,
  match m st with
  | (st', Ok a) => f a st'
  | (st', Err e) => (st', Err e)
  end.

Definition fail {A : Type} (e : Error) : M A := λ st, (st, Err e).

Definition get_rs : M RuleSet := λ st, (st, Ok st.2).

Definition get_heap : M (list eval_Rule) := λ st, (st, Ok st.1).

Definition modify_rs (f : RuleSet → RuleSet) : M unit :=
  λ st, ((st.1, f st.2), Ok tt).

Definition new_rule (r : eval_Rule) : M loc :=
  λ st, let '(h', p) := alloc st.1 r in ((h', st.2), Ok p).

(** A [for ... range] loop whose body may return an error. *)
Fixpoint forM_ {A : Type} (body : A → M unit) (l : list A) : M unit :=
  match l with
  | [] => mret tt
  | x :: rest => body x ;; forM_ body rest
  end.

(** *** Macros *)

(** [ListMacroIDs] returns the list of MacroIDs from the ruleset (in the
    order the map is ranged over, which Go leaves open). *)
Definition ListMacroIDs (rs : RuleSet) : list MacroID :=
  (map_to_list (eo_Macros (Opts_Opts (opts rs)))).*1.

Definition set_Macros (m : gmap MacroID eval_Macro) (rs : RuleSet) : RuleSet :=
  let o := opts rs in
  let eo := Opts_Opts o in
  set_opts (mkOpts (mk_eval_Opts (eo_Constants eo) (eo_Variables eo) m
                      (eo_LegacyAttributes eo))
              (SupportedDiscarders o) (ReservedRuleIDs o) (EventTypeEnabled o)) rs.

(** [AddMacro] parses the macro AST and adds it to the list of macros of the
    ruleset. *)
Definition AddMacro (macroDef : MacroDefinition) : M eval_Macro :=
  rs ← get_rs;
  match eo_Macros (Opts_Opts (opts rs)) !! md_ID macroDef with
  | Some _ =>
    fail (ErrMacroLoad macroDef (errors_New "multiple definition with the same ID"))
  | None =>
    let macro0 := mk_eval_Macro (md_ID macroDef) (md_Expression macroDef) MacroState_zero in
    let '(s1, perr) := Macro_Parse macro0 in
    let macro1 := mk_eval_Macro (em_ID macro0) (em_Expression macro0) s1 in
    match perr with
    | Some err => fail (ErrMacroLoad macroDef (errors_Wrap err "syntax error"))
    | None =>
      let '(s2, gerr) := Macro_GenEvaluator (model rs) (Opts_Opts (opts rs)) macro1 in
      let macro2 := mk_eval_Macro (em_ID macro1) (em_Expression macro1) s2 in
      match gerr with
      | Some err => fail (ErrMacroLoad macroDef (errors_Wrap err "compilation error"))
      | None =>
        modify_rs (λ rs, set_Macros (<[em_ID macro2 := macro2]> (eo_Macros (Opts_Opts (opts rs)))) rs) ;;
        mret macro2
      end
    end
  end.

(** One round of the loop of a bulk operation: the error of a failed
    definition is appended, and the loop goes on. *)
Definition bulk_step {A D : Type} (add : D → M A) (acc : St * multierror) (d : D)
    : St * multierror :=
  match add d acc.1 with
  | (st', Err err) => (st', multierror_Append acc.2 err)
  | (st', Ok _) => (st', acc.2)
  end.

(** [AddMacros] parses the macros AST and adds them to the list of macros of
    the ruleset. *)
Definition AddMacros (macros : list MacroDefinition) (st : St) : St * multierror :=
  foldl (bulk_step AddMacro) (st, []) macros.

(** *** Rules *)

(** [GetTags] returns the tags associated to a rule, one ["key:value"] per
    entry, in the order the map is ranged over. *)
Definition GetTags (rd : RuleDefinition) : list string :=
  (λ kv, kv.1 +:+ ":" +:+ kv.2) <$> map_to_list (rd_Tags rd).

(** [ListRuleIDs] returns the list of RuleIDs from the ruleset (in the order
    the map is ranged over, which Go leaves open). *)
Definition ListRuleIDs (rs : RuleSet) : list RuleID :=
  (map_to_list (rules rs)).*1.

(** [GetRules] returns the active rules. *)
Definition GetRules (rs : RuleSet) : gmap RuleID Rule := rules rs.

(** [GetRuleEventType] return the rule EventType.  Currently rules support
    only one eventType. *)
Definition GetRuleEventType (rule : eval_Rule) : result EventType :=
  let '(eventTypes, err) := Rule_GetEventTypes rule in
  match err with
  | Some err => Err err
  | None =>
    match eventTypes with
    | [] => Err ErrRuleWithoutEvent
    | _ :: _ :: _ => Err ErrRuleWithMultipleEvents
    | [eventType] => Ok eventType
    end
  end.

(** The body of the loop of [AddRule] over the event types of the rule: the
    bucket of the event type is looked up, created and stored if it is not
    there, and the rule is added to it in place. *)
Definition addToBucket (rule : Rule) (event : EventType) : M unit :=
  λ st,
    let '(h, rs) := st in
    let '(bucket, rs1) :=
      match eventRuleBuckets rs !! event with
      | Some bucket => (bucket, rs)
      | None =>
        let bucket := mkRuleBucket [] [] in
        (bucket, set_eventRuleBuckets (<[event := bucket]> (eventRuleBuckets rs)) rs)
      end in
    let '(bucket', err) := RuleBucket_AddRule h bucket rule in
    let rs2 := set_eventRuleBuckets (<[event := bucket']> (eventRuleBuckets rs1)) rs1 in
    match err with
    | Some err => ((h, rs2), Err err)
    | None => ((h, rs2), Ok tt)
    end.

(** [AddRule] creates the rule evaluator and adds it to the bucket of its
    events.  The rule object enters the heap when the first reference to it
    is about to be stored; one that fails before is never seen again. *)
Definition AddRule (ruleDef : RuleDefinition) : M loc :=
  rs ← get_rs;
  if bool_decide (rd_ID ruleDef ∈ ReservedRuleIDs (opts rs))
  then fail (ErrRuleLoad ruleDef ErrInternalIDConflict)
  else
  match rules rs !! rd_ID ruleDef with
  | Some _ => fail (ErrRuleLoad ruleDef ErrDefinitionIDConflict)
  | None =>
    let tags := (λ kv, kv.1 +:+ ":" +:+ kv.2) <$> map_to_list (rd_Tags ruleDef) in
    let rule0 := mk_eval_Rule (rd_ID ruleDef) (rd_Expression ruleDef) tags RuleState_zero in
    let '(s1, perr) := Rule_Parse rule0 in
    let rule1 := mk_eval_Rule (er_ID rule0) (er_Expression rule0) (er_Tags rule0) s1 in
    match perr with
    | Some err => fail (ErrRuleLoad ruleDef (errors_Wrap err "syntax error"))
    | None =>
      let '(s2, gerr) := Rule_GenEvaluator (model rs) (Opts_Opts (opts rs)) rule1 in
      let rule2 := mk_eval_Rule (er_ID rule1) (er_Expression rule1) (er_Tags rule1) s2 in
      match gerr with
      | Some err => fail (ErrRuleLoad ruleDef err)
      | None =>
        match GetRuleEventType rule2 with
        | Err err => fail (ErrRuleLoad ruleDef err)
        | Ok eventType =>
          match EventTypeEnabled (opts rs) !! "*",
                EventTypeEnabled (opts rs) !! eventType with
          | None, None => fail (ErrRuleLoad ruleDef ErrEventTypeNotEnabled)
          | _, _ =>
            p ← new_rule rule2;
            let rule := mkRule p ruleDef in
            forM_ (addToBucket rule) (Evaluator_EventTypes rule2) ;;
            modify_rs (AddFields (Evaluator_GetFields rule2)) ;;
            modify_rs (λ rs, set_rules (<[rd_ID ruleDef := rule]> (rules rs)) rs) ;;
            mret p
          end
        end
      end
    end
  end.

(** The inner loop of [generatePartials]: the partials of the rules of one
    bucket, in place, up to the first failure. *)
Fixpoint generatePartials_rules (h : Heap) (rs : list Rule) : Heap * option Error :=
  match rs with
  | [] => (h, None)
  | rule :: rest =>
    let r := h !!! Rule_Rule rule in
    let '(s, err) := Rule_GenPartials r in
    let h' := <[Rule_Rule rule := mk_eval_Rule (er_ID r) (er_Expression r) (er_Tags r) s]> h in
    match err with
    | Some err => (h', Some err)
    | None => generatePartials_rules h' rest
    end
  end.

(** The outer loop of [generatePartials], over the buckets in the order
    [buckets]. *)
Fixpoint generatePartials_buckets (h : Heap) (buckets : list RuleBucket)
    : Heap * option Error :=
  match buckets with
  | [] => (h, None)
  | bucket :: rest =>
    match generatePartials_rules h (RuleBucket_GetRules bucket) with
    | (h', Some err) => (h', Some err)
    | (h', None) => generatePartials_buckets h' rest
    end
  end.

(** [generatePartials] generates the partials of the ruleset.  Go leaves the
    order in which the bucket map is ranged over open; here it is the order
    of [map_to_list]. *)
Definition generatePartials (st : St) : St * option Error :=
  let '(h', err) :=
    generatePartials_buckets st.1 (map_to_list (eventRuleBuckets st.2)).*2 in
  ((h', st.2), err).

(** [AddRules] adds rules to the ruleset and generate their partials. *)
Definition AddRules (defs : list RuleDefinition) (st : St) : St * multierror :=
  let '(st1, result) := foldl (bulk_step AddRule) (st, []) defs in
  match generatePartials st1 with
  | (st2, Some err) =>
    (st2, multierror_Append result
            (errors_Wrap err "couldn't generate partials for rule"))
  | (st2, None) => (st2, result)
  end.

(** *** Listeners *)

(** [NotifyRuleMatch] notifies all the ruleset listeners that an event
    matched a rule; the result is the calls made, in order. *)
Definition NotifyRuleMatch (rs : RuleSet) (rule : Rule) (event : Event)
    : list ListenerCall :=
  (λ listener, RuleMatch listener rule event) <$> listeners rs.

(** [NotifyDiscarderFound] notifies all the ruleset listeners that a
    discarder was found for an event. *)
Definition NotifyDiscarderFound (rs : RuleSet) (event : Event) (field : Field)
    (eventType : EventType) : list ListenerCall :=
  (λ listener, EventDiscarderFound listener event field eventType) <$> listeners rs.

(** [AddListener] adds a listener on the ruleset. *)
Definition AddListener (listener : Listener) (rs : RuleSet) : RuleSet :=
  set_listeners (listeners rs ++ [listener]) rs.

(** *** Queries *)

(** [HasRulesForEventType] returns if there is at least one rule for the
    given event type. *)
Definition HasRulesForEventType (rs : RuleSet) (eventType : EventType) : bool :=
  match eventRuleBuckets rs !! eventType with
  | None => false
  | Some bucket => bool_decide (0 < length (rb_rules bucket))
  end.

(** [GetBucket] returns rule bucket for the given event type. *)
Definition GetBucket (rs : RuleSet) (eventType : EventType) : option RuleBucket :=
  eventRuleBuckets rs !! eventType.

(** [GetEventTypes] returns all the event types handled by the ruleset. *)
Definition GetEventTypes (rs : RuleSet) : list EventType :=
  (map_to_list (eventRuleBuckets rs)).*1.

(** [GetEventApprovers] returns approvers for the given event type and the
    fields. *)
Definition GetEventApprovers (h : Heap) (rs : RuleSet) (eventType : EventType)
    (fieldCaps : FieldCapabilities) : Approvers * option Error :=
  match eventRuleBuckets rs !! eventType with
  | None => (Approvers_nil, Some (ErrNoEventTypeBucket eventType))
  | Some bucket => RuleBucket_GetApprovers h bucket (eventCtor rs ()) fieldCaps
  end.

(** One round of the loop of [GetApprovers]. *)
Definition GetApprovers_step (h : Heap) (rs : RuleSet)
    (fieldCaps : gmap EventType FieldCapabilities)
    (approvers : gmap EventType Approvers) (eventType : EventType)
    : gmap EventType Approvers :=
  match fieldCaps !! eventType with
  | None => approvers
  | Some caps =>
    match GetEventApprovers h rs eventType caps with
    | (_, Some _) => approvers
    | (eventApprovers, None) => <[eventType := eventApprovers]> approvers
    end
  end.

(** [GetApprovers] returns all approvers. *)
Definition GetApprovers (h : Heap) (rs : RuleSet)
    (fieldCaps : gmap EventType FieldCapabilities)
    : gmap EventType Approvers * option Error :=
  (foldl (GetApprovers_step h rs fieldCaps) ∅ (GetEventTypes rs), None).

(** [AddPolicyVersion] adds the provided policy filename and version to the
    map of loaded policies. *)
Definition AddPolicyVersion (filename version : string) (rs : RuleSet) : RuleSet :=
  set_loadedPolicies (<[ReplaceAll filename "." "_" := version]> (loadedPolicies rs)) rs.

(** *** Evaluation *)

(** The loop of [IsDiscarder] over the rules of the bucket. *)
Fixpoint IsDiscarder_rules (h : Heap) (ctx : Context) (field : Field)
    (rs : list Rule) : bool * option Error :=
  match rs with
  | [] => (true, None)
  | rule :: rest =>
    let '(isTrue, err) := Rule_PartialEval (h !!! Rule_Rule rule) ctx field in
    if bool_decide (err ≠ None) || isTrue
    then (false, err)
    else IsDiscarder_rules h ctx field rest
  end.

(** [IsDiscarder] partially evaluates an Event against a field. *)
Definition IsDiscarder (h : Heap) (event : Event) (field : Field) (rs : RuleSet)
    : RuleSet * (bool * option Error) :=
  let '(eventType, err) := Event_GetFieldEventType event field in
  match err with
  | Some err => (rs, (false, Some err))
  | None =>
    match eventRuleBuckets rs !! eventType with
    | None => (rs, (false, Some (ErrNoEventTypeBucket eventType)))
    | Some bucket =>
      let '(p, ctx) := ContextPool_Get (pool rs) event in
      let out := IsDiscarder_rules h ctx field (rb_rules bucket) in
      (set_pool (ContextPool_Put p ctx) rs, out)
    end
  end.

(** The first loop of [Evaluate]: every rule of the bucket is evaluated, the
    listeners are notified of each match, and [result] becomes true at the
    first of them. *)
Fixpoint Evaluate_rules (h : Heap) (rs : RuleSet) (ctx : Context) (event : Event)
    (bucket_rules : list Rule) (result : bool) : list ListenerCall * bool :=
  match bucket_rules with
  | [] => ([], result)
  | rule :: rest =>
    if Evaluator_Eval (h !!! Rule_Rule rule) ctx
    then
      let '(calls, result') := Evaluate_rules h rs ctx event rest true in
      (NotifyRuleMatch rs rule event ++ calls, result')
    else Evaluate_rules h rs ctx event rest result
  end.

(** The inner loop of the discarder search: [isDiscarder] stays true unless a
    rule's partial evaluation fails or is true, which ends the loop. *)
Fixpoint isDiscarder_rules (h : Heap) (ctx : Context) (field : Field)
    (rs : list Rule) : bool :=
  match rs with
  | [] => true
  | rule :: rest =>
    let '(isTrue, err) := Rule_PartialEval (h !!! Rule_Rule rule) ctx field in
    if bool_decide (err ≠ None) || isTrue
    then false
    else isDiscarder_rules h ctx field rest
  end.

(** Is [field] let through by [SupportedDiscarders]?  A nil map lets
    everything through, another one its keys. *)
Definition discarderSupported (rs : RuleSet) (field : Field) : bool :=
  match SupportedDiscarders (opts rs) with
  | None => true
  | Some supported => bool_decide (is_Some (supported !! field))
  end.

(** The second loop of [Evaluate], over the fields of the bucket. *)
Fixpoint Evaluate_fields (h : Heap) (rs : RuleSet) (ctx : Context) (event : Event)
    (eventType : EventType) (bucket : RuleBucket) (bucket_fields : list Field)
    : list ListenerCall :=
  match bucket_fields with
  | [] => []
  | field :: rest =>
    if negb (discarderSupported rs field)
    then Evaluate_fields h rs ctx event eventType bucket rest
    else
      if isDiscarder_rules h ctx field (rb_rules bucket)
      then NotifyDiscarderFound rs event field eventType
             ++ Evaluate_fields h rs ctx event eventType bucket rest
      else Evaluate_fields h rs ctx event eventType bucket rest
  end.

(** [Evaluate] the specified event against the set of rules.  The result is
    the rule set (whose pool got its context back), the calls made on the
    listeners, in order, and the value returned. *)
Definition Evaluate (h : Heap) (event : Event) (rs : RuleSet)
    : RuleSet * (list ListenerCall * bool) :=
  let '(p, ctx) := ContextPool_Get (pool rs) event in
  let eventType := Event_GetType event in
  let out :=
    match eventRuleBuckets rs !! eventType with
    | None => ([], false)
    | Some bucket =>
      let '(calls, result) := Evaluate_rules h rs ctx event (rb_rules bucket) false in
      if negb result
      then (calls ++ Evaluate_fields h rs ctx event eventType bucket (rb_fields bucket),
            result)
      else (calls, result)
    end in
  (set_pool (ContextPool_Put p ctx) rs, out).

(** * Specification vocabulary *)

(** The rules of a bucket that evaluate to true. *)
Definition matchingRules (h : Heap) (ctx : Context) (bucket_rules : list Rule)
    : list Rule :=
  List.filter (λ rule, Evaluator_Eval (h !!! Rule_Rule rule) ctx) bucket_rules.

Definition is_RuleMatch (c : ListenerCall) : bool :=
  match c with RuleMatch _ _ _ => true | _ => false end.

Definition is_EventDiscarderFound (c : ListenerCall) : bool :=
  match c with EventDiscarderFound _ _ _ _ => true | _ => false end.

(** A rule partially evaluates to false, without error, on [field]. *)
Definition partialFalse (h : Heap) (ctx : Context) (field : Field) (rule : Rule)
    : Prop :=
  Rule_PartialEval (h !!! Rule_Rule rule) ctx field = (false, None).

#[export] Instance partialFalse_dec h ctx field rule :
  Decision (partialFalse h ctx field rule).
Proof.
  unfold partialFalse.
  destruct (Rule_PartialEval (h !!! Rule_Rule rule) ctx field) as [[] [e|]];
    (by left) || (by right).
Defined.

(** The fields of a bucket that [Evaluate] finds to be discarders. *)
Definition discarderFields (h : Heap) (rs : RuleSet) (ctx : Context)
    (bucket : RuleBucket) : list Field :=
  List.filter
    (λ field, discarderSupported rs field
              && bool_decide (Forall (partialFalse h ctx field) (rb_rules bucket)))
    (rb_fields bucket).

(** The rules listener [l] was told matched, in the order it was told. *)
Definition rulesNotifiedTo (l : Listener) (calls : list ListenerCall) : list Rule :=
  omap (λ c, match c with
             | RuleMatch l' rule _ => if decide (l' = l) then Some rule else None
             | _ => None
             end) calls.

(** The (field, event type) pairs listener [l] was told are discarders. *)
Definition discardersNotifiedTo (l : Listener) (calls : list ListenerCall)
    : list (Field * EventType) :=
  omap (λ c, match c with
             | EventDiscarderFound l' _ field eventType =>
               if decide (l' = l) then Some (field, eventType) else None
             | _ => None
             end) calls.

(** How often [l] is registered as a listener. *)
Definition registrations (rs : RuleSet) (l : Listener) : nat :=
  length (List.filter (λ l', bool_decide (l' = l)) (listeners rs)).

(** What [GetApprovers] keeps for an event type: the approvers of the event
    type when capabilities were supplied for it and its resolution did not
    fail. *)
Definition approversOf (h : Heap) (rs : RuleSet)
    (fieldCaps : gmap EventType FieldCapabilities) (eventType : EventType)
    : option Approvers :=
  match fieldCaps !! eventType with
  | None => None
  | Some caps =>
    match GetEventApprovers h rs eventType caps with
    | (_, Some _) => None
    | (eventApprovers, None) => Some eventApprovers
    end
  end.

(** The fields of [newFields] that are not in [seen], each once, in the
    order of their first occurrence. *)
Fixpoint firstNew (seen newFields : list Field) : list Field :=
  match newFields with
  | [] => []
  | f :: rest =>
    if decide (f ∈ seen) then firstNew seen rest
    else f :: firstNew (seen ++ [f]) rest
  end.

(** The rule object [AddRule] makes of a definition: the struct literal,
    parsed. *)
Definition parsedRule (ruleDef : RuleDefinition) : eval_Rule :=
  let rule0 :=
    mk_eval_Rule (rd_ID ruleDef) (rd_Expression ruleDef)
      ((λ kv, kv.1 +:+ ":" +:+ kv.2) <$> map_to_list (rd_Tags ruleDef))
      RuleState_zero in
  mk_eval_Rule (er_ID rule0) (er_Expression rule0) (er_Tags rule0) (Rule_Parse rule0).1.

Definition parseError (ruleDef : RuleDefinition) : option Error :=
  (Rule_Parse
     (mk_eval_Rule (rd_ID ruleDef) (rd_Expression ruleDef)
        ((λ kv, kv.1 +:+ ":" +:+ kv.2) <$> map_to_list (rd_Tags ruleDef))
        RuleState_zero)).2.

(** The same object once its evaluator is generated, and the error of that
    step. *)
Definition compiledRule (rs : RuleSet) (ruleDef : RuleDefinition) : eval_Rule :=
  let rule1 := parsedRule ruleDef in
  mk_eval_Rule (er_ID rule1) (er_Expression rule1) (er_Tags rule1)
    (Rule_GenEvaluator (model rs) (Opts_Opts (opts rs)) rule1).1.

Definition compileError (rs : RuleSet) (ruleDef : RuleDefinition) : option Error :=
  (Rule_GenEvaluator (model rs) (Opts_Opts (opts rs)) (parsedRule ruleDef)).2.

(** The bucket [AddRule] adds a rule of event type [eventType] to: the one of
    the rule set, or a new one. *)
Definition bucketFor (rs : RuleSet) (eventType : EventType) : RuleBucket :=
  default (mkRuleBucket [] []) (eventRuleBuckets rs !! eventType).

(** The state a successful [AddRule] leaves: the rule object at the end of
    the heap, the rule in the bucket of its event type, its fields in the
    bucket's and in the global field list, and the rule in the rule table. *)
Definition storedRule (ruleDef : RuleDefinition) (eventType : EventType) (st : St) : St :=
  let rule2 := compiledRule st.2 ruleDef in
  let rule := mkRule (length st.1) ruleDef in
  let bucket := bucketFor st.2 eventType in
  (st.1 ++ [rule2],
   set_rules (<[rd_ID ruleDef := rule]> (rules st.2))
     (AddFields (Evaluator_GetFields rule2)
        (set_eventRuleBuckets
           (<[eventType :=
                mkRuleBucket (rb_rules bucket ++ [rule])
                  (mergeFields (rb_fields bucket) (Evaluator_GetFields rule2))]>
              (eventRuleBuckets st.2))
           st.2))).

(** The state [AddRule] leaves when the bucket refuses the rule: the rule
    object is in the heap, and the bucket that was looked up or created is in
    the bucket map. *)
Definition refusedRule (ruleDef : RuleDefinition) (eventType : EventType) (st : St) : St :=
  (st.1 ++ [compiledRule st.2 ruleDef],
   set_eventRuleBuckets
     (<[eventType := bucketFor st.2 eventType]> (eventRuleBuckets st.2)) st.2).

(** The ways through [AddRule], in the order of its checks: the state it
    leaves and what it returns. *)
Inductive AddRule_case (ruleDef : RuleDefinition) (st : St) : St → result loc → Prop :=
| AddRule_reserved :
    rd_ID ruleDef ∈ ReservedRuleIDs (opts st.2) →
    AddRule_case ruleDef st st (Err (ErrRuleLoad ruleDef ErrInternalIDConflict))
| AddRule_duplicate :
    rd_ID ruleDef ∉ ReservedRuleIDs (opts st.2) →
    is_Some (rules st.2 !! rd_ID ruleDef) →
    AddRule_case ruleDef st st (Err (ErrRuleLoad ruleDef ErrDefinitionIDConflict))
| AddRule_syntax err :
    rd_ID ruleDef ∉ ReservedRuleIDs (opts st.2) →
    rules st.2 !! rd_ID ruleDef = None →
    parseError ruleDef = Some err →
    AddRule_case ruleDef st st
      (Err (ErrRuleLoad ruleDef (errors_Wrap err "syntax error")))
| AddRule_compilation err :
    rd_ID ruleDef ∉ ReservedRuleIDs (opts st.2) →
    rules st.2 !! rd_ID ruleDef = None →
    parseError ruleDef = None →
    compileError st.2 ruleDef = Some err →
    AddRule_case ruleDef st st (Err (ErrRuleLoad ruleDef err))
| AddRule_eventType err :
    rd_ID ruleDef ∉ ReservedRuleIDs (opts st.2) →
    rules st.2 !! rd_ID ruleDef = None →
    parseError ruleDef = None →
    compileError st.2 ruleDef = None →
    GetRuleEventType (compiledRule st.2 ruleDef) = Err err →
    AddRule_case ruleDef st st (Err (ErrRuleLoad ruleDef err))
| AddRule_disabled eventType :
    rd_ID ruleDef ∉ ReservedRuleIDs (opts st.2) →
    rules st.2 !! rd_ID ruleDef = None →
    parseError ruleDef = None →
    compileError st.2 ruleDef = None →
    GetRuleEventType (compiledRule st.2 ruleDef) = Ok eventType →
    EventTypeEnabled (opts st.2) !! "*" = None →
    EventTypeEnabled (opts st.2) !! eventType = None →
    AddRule_case ruleDef st st (Err (ErrRuleLoad ruleDef ErrEventTypeNotEnabled))
| AddRule_refused eventType err :
    rd_ID ruleDef ∉ ReservedRuleIDs (opts st.2) →
    rules st.2 !! rd_ID ruleDef = None →
    parseError ruleDef = None →
    compileError st.2 ruleDef = None →
    GetRuleEventType (compiledRule st.2 ruleDef) = Ok eventType →
    Evaluator_EventTypes (compiledRule st.2 ruleDef) = [eventType] →
    is_Some (EventTypeEnabled (opts st.2) !! "*")
    ∨ is_Some (EventTypeEnabled (opts st.2) !! eventType) →
    RuleBucket_AddRule_err (st.1 ++ [compiledRule st.2 ruleDef])
      (bucketFor st.2 eventType) (mkRule (length st.1) ruleDef) = Some err →
    AddRule_case ruleDef st (refusedRule ruleDef eventType st) (Err err)
| AddRule_stored eventType :
    rd_ID ruleDef ∉ ReservedRuleIDs (opts st.2) →
    rules st.2 !! rd_ID ruleDef = None →
    parseError ruleDef = None →
    compileError st.2 ruleDef = None →
    GetRuleEventType (compiledRule st.2 ruleDef) = Ok eventType →
    Evaluator_EventTypes (compiledRule st.2 ruleDef) = [eventType] →
    is_Some (EventTypeEnabled (opts st.2) !! "*")
    ∨ is_Some (EventTypeEnabled (opts st.2) !! eventType) →
    RuleBucket_AddRule_err (st.1 ++ [compiledRule st.2 ruleDef])
      (bucketFor st.2 eventType) (mkRule (length st.1) ruleDef) = None →
    AddRule_case ruleDef st (storedRule ruleDef eventType st) (Ok (length st.1)).

(** What holds of every rule set made by [NewRuleSet] and the operations of
    this file: no field twice in the global field list nor in a bucket's, no
    reserved ID in the rule table, every rule under the ID of its
    definition, and every rule of a bucket in the rule table. *)
Record RuleSet_inv (rs : RuleSet) : Prop := mkRuleSet_inv {
  inv_fields : NoDup (fields rs);
  inv_bucket_fields :
    ∀ eventType bucket,
      eventRuleBuckets rs !! eventType = Some bucket → NoDup (rb_fields bucket);
  inv_rules :
    ∀ id rule,
      rules rs !! id = Some rule →
      (id ∉ ReservedRuleIDs (opts rs)) ∧ rd_ID (Rule_Definition rule) = id;
  inv_bucket_rules :
    ∀ eventType bucket rule,
      eventRuleBuckets rs !! eventType = Some bucket →
      rule ∈ rb_rules bucket →
      rules rs !! rd_ID (Rule_Definition rule) = Some rule
}.

(** The states a rule set and the heap of its rule objects can be in: a new
    rule set, on any heap, and what the operations of this file make of it.
    [generatePartials] may range over the buckets in any order. *)
Inductive reachable : St → Prop :=
| reachable_NewRuleSet h m ctor o :
    reachable (h, NewRuleSet m ctor o)
| reachable_AddRule st ruleDef :
    reachable st → reachable (AddRule ruleDef st).1
| reachable_AddMacro st macroDef :
    reachable st → reachable (AddMacro macroDef st).1
| reachable_generatePartials st buckets :
    reachable st →
    buckets ≡ₚ (map_to_list (eventRuleBuckets st.2)).*2 →
    reachable ((generatePartials_buckets st.1 buckets).1, st.2)
| reachable_AddListener st l :
    reachable st → reachable (st.1, AddListener l st.2)
| reachable_AddPolicyVersion st filename version :
    reachable st → reachable (st.1, AddPolicyVersion filename version st.2)
| reachable_AddFields st newFields :
    reachable st → reachable (st.1, AddFields newFields st.2)
| reachable_Evaluate st event :
    reachable st → reachable (st.1, (Evaluate st.1 event st.2).1)
| reachable_IsDiscarder st event field :
    reachable st → reachable (st.1, (IsDiscarder st.1 event field st.2).1).

(** What a bulk operation made of [add] returns for each definition of
    [defs], each call running on the state the one before it left. *)
Fixpoint bulk_outcomes {A D : Type} (add : D → M A) (st : St) (defs : list D)
    : list (result A) :=
  match defs with
  | [] => []
  | d :: rest => (add d st).2 :: bulk_outcomes add (add d st).1 rest
  end.

(** The state the last of these calls leaves. *)
Fixpoint bulk_final {A D : Type} (add : D → M A) (st : St) (defs : list D) : St :=
  match defs with
  | [] => st
  | d :: rest => bulk_final add (add d st).1 rest
  end.

(** The errors among outcomes, in order. *)
Definition errorsOf {A : Type} (outcomes : list (result A)) : list Error :=
  omap (λ r, match r with Err e => Some e | Ok _ => None end) outcomes.





(** No character of [s] is a dot. *)
Fixpoint dotFree (s : string) : bool :=
  match s with
  | EmptyString => true
  | String c s' => negb (Ascii.eqb c "."%char) && dotFree s'
  end.

(** An outcome that is no error. *)
Definition isOk {A : Type} (r : result A) : Prop :=
  match r with Ok _ => True | Err _ => False end.

(** ** Field values

    [eval.FieldValue] and [eval.Rule.GetFieldValues] are not part of this
    file either. *)
Class FieldValueOps := {
  FieldValue : Type;
  (** [rule.GetFieldValues(field)] *)
  Rule_GetFieldValues : eval_Rule → Field → list FieldValue
}.

Context `{FO : FieldValueOps}.

(** One round of the loop of [GetFieldValues]. *)
Definition GetFieldValues_step (h : Heap) (field : Field) (values : list FieldValue)
    (rule : Rule) : list FieldValue :=
  let rv := Rule_GetFieldValues (h !!! Rule_Rule rule) field in
  if bool_decide (0 < length rv) then values ++ rv else values.

(** [GetFieldValues] returns all the values of the given field (the rules
    are ranged over in the order of [map_to_list]; Go leaves the order
    open). *)
Definition GetFieldValues (h : Heap) (rs : RuleSet) (field : Field) : list FieldValue :=
  foldl (GetFieldValues_step h field) [] (map_to_list (rules rs)).*2.

End RuleSet.

(** * A sample binding

    A small expression language in place of SECL, to run the rule set on:
    the constant true, equality tests on the fields of an event,
    conjunctions, and an opaque predicate with no fields whose partials
    cannot be generated.  The model
    is the table that gives each expression text its meaning. *)

Inductive SampleExpr : Type :=
| STrue
| SEq (eventType name value : string)
| SAnd (a b : SampleExpr)
| SOpaque (eventType : string).

Record SampleEvent := mkSampleEvent {
  se_type : string;
  se_values : gmap string string
}.

Record SampleState := mkSampleState {
  ss_expr : option SampleExpr;
  ss_partials : bool
}.

Fixpoint sample_eventTypes (e : SampleExpr) : list string :=
  match e with
  | STrue => []
  | SEq eventType _ _ => [eventType]
  | SAnd a b => mergeFields (sample_eventTypes a) (sample_eventTypes b)
  | SOpaque eventType => [eventType]
  end.

Fixpoint sample_fields (e : SampleExpr) : list string :=
  match e with
  | STrue => []
  | SEq eventType name _ => [eventType +:+ "." +:+ name]
  | SAnd a b => mergeFields (sample_fields a) (sample_fields b)
  | SOpaque _ => []
  end.

Fixpoint sample_eval (ev : SampleEvent) (e : SampleExpr) : bool :=
  match e with
  | STrue => true
  | SEq eventType name value =>
    bool_decide (se_values ev !! (eventType +:+ "." +:+ name) = Some value)
  | SAnd a b => sample_eval ev a && sample_eval ev b
  | SOpaque _ => true
  end.

(** The expression with every test on another field than [field] taken to
    hold. *)
Fixpoint sample_partial (ev : SampleEvent) (field : string) (e : SampleExpr) : bool :=
  match e with
  | STrue => true
  | SEq eventType name value =>
    if String.eqb (eventType +:+ "." +:+ name) field
    then bool_decide (se_values ev !! field = Some value)
    else true
  | SAnd a b => sample_partial ev field a && sample_partial ev field b
  | SOpaque _ => true
  end.

Fixpoint sample_opaque (e : SampleExpr) : bool :=
  match e with
  | STrue => false
  | SEq _ _ _ => false
  | SAnd a b => sample_opaque a || sample_opaque b
  | SOpaque _ => true
  end.

(** The event type of a field is what comes before its first dot. *)
Fixpoint sample_fieldEventType (field : string) : option string :=
  match field with
  | EmptyString => None
  | String c rest =>
    if Ascii.eqb c "."%char then Some EmptyString
    else String c <$> sample_fieldEventType rest
  end.

#[export] Instance sample_types : EvalTypes := {|
  Event := SampleEvent;
  Model := gmap string SampleExpr;
  ConstantValue := unit;
  VariableValue := unit;
  RuleState := SampleState;
  MacroState := option SampleExpr;
  RuleState_zero := mkSampleState None false;
  MacroState_zero := None
|}.

Definition sample_parse_err (expression : string) : option Error :=
  if String.eqb expression "" then Some (ErrEval "empty expression") else None.

Definition sample_compile (m : gmap string SampleExpr) (expression : string)
    : option SampleExpr * option Error :=
  match m !! expression with
  | Some e => (Some e, None)
  | None => (None, Some (ErrEval "unknown expression"))
  end.

Definition sample_GenPartials (r : eval_Rule) : SampleState * option Error :=
  match ss_expr (er_state r) with
  | None => (er_state r, Some (ErrEval "rule not compiled"))
  | Some e =>
    if sample_opaque e
    then (er_state r, Some (ErrEval "opaque predicate"))
    else (mkSampleState (Some e) true, None)
  end.

Definition sample_PartialEval (r : eval_Rule) (ctx : Context) (field : string)
    : bool * option Error :=
  match ss_expr (er_state r), ss_partials (er_state r) with
  | Some e, true =>
    if hasField (sample_fields e) field
    then (sample_partial (ctx_Object ctx) field e, None)
    else (false, Some (ErrEval "field not found"))
  | _, _ => (false, Some (ErrEval "no partials"))
  end.

#[export] Instance sample_ops : EvalOps := {|
  Event_GetType := se_type;
  Event_GetFieldEventType := λ _ field,
    match sample_fieldEventType field with
    | Some eventType => (eventType, None)
    | None => ("", Some (ErrEval "field not found"))
    end;
  Macro_Parse := λ m, (em_state m, sample_parse_err (em_Expression m));
  Macro_GenEvaluator := λ m _ macro, sample_compile m (em_Expression macro);
  Rule_Parse := λ r, (er_state r, sample_parse_err (er_Expression r));
  Rule_GenEvaluator := λ m _ r,
    let '(e, err) := sample_compile m (er_Expression r) in
    (mkSampleState e false, err);
  Rule_GenPartials := sample_GenPartials;
  Rule_GetEventTypes_err := λ r,
    match ss_expr (er_state r) with
    | None => Some (ErrEval "rule not compiled")
    | Some _ => None
    end;
  Evaluator_EventTypes := λ r, from_option sample_eventTypes [] (ss_expr (er_state r));
  Evaluator_GetFields := λ r, from_option sample_fields [] (ss_expr (er_state r));
  Evaluator_Eval := λ r ctx,
    from_option (sample_eval (ctx_Object ctx)) false (ss_expr (er_state r));
  Rule_PartialEval := sample_PartialEval
|}.

(** A bucket refuses a rule whose ID it already holds a rule of; approvers
    are the values of the fields with a capability, and asking for none is an
    error. *)
#[export] Instance sample_buckets : BucketOps := {|
  FieldCapabilities := list string;
  Approvers := gmap string (list string);
  Approvers_nil := ∅;
  RuleBucket_AddRule_err := λ h rb rule,
    if existsb (λ r, String.eqb (er_ID (h !!! Rule_Rule r)) (er_ID (h !!! Rule_Rule rule)))
         (rb_rules rb)
    then Some (ErrRuleLoad (Rule_Definition rule) ErrDefinitionIDConflict)
    else None;
  RuleBucket_GetApprovers := λ h rb ev caps,
    match caps with
    | [] => (∅, Some (ErrEval "no capabilities"))
    | _ => (list_to_map ((λ f, (f, [])) <$> caps), None)
    end
|}.

(** The sample model, rule definitions and events. *)
Definition sample_model : gmap string SampleExpr :=
  list_to_map
    [ ("open.filename == /etc/passwd", SEq "open" "filename" "/etc/passwd");
      ("open.filename == /etc/shadow", SEq "open" "filename" "/etc/shadow");
      ("open.filename == /etc/passwd && open.flags == w",
         SAnd (SEq "open" "filename" "/etc/passwd") (SEq "open" "flags" "w"));
      ("open.filename == x && exec.path == y",
         SAnd (SEq "open" "filename" "x") (SEq "exec" "path" "y"));
      ("opaque(open)", SOpaque "open");
      ("true", STrue);
      ("1 == 1", SAnd (SEq "open" "a" "b") (SEq "open" "a" "b")) ].

Definition sample_def (id expression : string) : RuleDefinition :=
  mkRuleDefinition id "1" expression "" ∅ None.

Definition sample_opts : Opts :=
  NewOptsWithParams ∅ ∅ None {["*" := true]} ["refresh_user_cache"] ∅.

Definition sample_rs : RuleSet :=
  AddListener 7 (NewRuleSet sample_model (λ _, mkSampleEvent "" ∅) sample_opts).

Definition sample_open (filename flags : string) : SampleEvent :=
  mkSampleEvent "open" {["open.filename" := filename; "open.flags" := flags]}.

Definition sample_st0 : St := ([], sample_rs).

Definition sample_passwd : RuleDefinition :=
  sample_def "r1" "open.filename == /etc/passwd".

Definition sample_shadow : RuleDefinition :=
  sample_def "r1" "open.filename == /etc/shadow".

Definition sample_passwd_w : RuleDefinition :=
  sample_def "r3" "open.filename == /etc/passwd && open.flags == w".

(** The rule set with ["r1"] and ["r3"] loaded; the definition between them
    does not parse. *)
Definition sample_loaded : St :=
  (AddRules [sample_passwd; sample_def "r2" ""; sample_passwd_w] sample_st0).1.

(** A rule set in which only the event type ["exec"] is enabled. *)
Definition sample_exec_only : St :=
  ([], NewRuleSet sample_model (λ _, mkSampleEvent "" ∅)
         (NewOptsWithParams ∅ ∅ None {["exec" := true]} [] ∅)).

Section Properties.

Context `{ET : EvalTypes} `{EO : !EvalOps} `{BO : !BucketOps}.

(** * Properties of evaluation *)

Lemma partial_blocks_iff h ctx field rule :
  (let '(isTrue, err) := Rule_PartialEval (h !!! Rule_Rule rule) ctx field in
   bool_decide (err ≠ None) || isTrue) = false
  ↔ partialFalse h ctx field rule.
Proof.
  unfold partialFalse.
  destruct (Rule_PartialEval (h !!! Rule_Rule rule) ctx field) as [[] [e|]];
    cbn; split; intros H; try done.
Qed.

Lemma Evaluate_rules_calls h rs ctx event bucket_rules result :
  (Evaluate_rules h rs ctx event bucket_rules result).1
  = matchingRules h ctx bucket_rules ≫= λ rule, NotifyRuleMatch rs rule event.
Proof.
  revert result. induction bucket_rules as [|rule rest IH]; intros result; cbn.
  - done.
  - destruct (Evaluator_Eval (h !!! Rule_Rule rule) ctx); cbn.
    + specialize (IH true).
      destruct (Evaluate_rules h rs ctx event rest true) as [calls r]. cbn in *.
      by rewrite IH.
    + apply IH.
Qed.

Lemma Evaluate_rules_result h rs ctx event bucket_rules result :
  (Evaluate_rules h rs ctx event bucket_rules result).2
  = result || bool_decide (matchingRules h ctx bucket_rules ≠ []).
Proof.
  revert result. induction bucket_rules as [|rule rest IH]; intros result; cbn.
  - by rewrite orb_false_r.
  - destruct (Evaluator_Eval (h !!! Rule_Rule rule) ctx); cbn.
    + specialize (IH true).
      destruct (Evaluate_rules h rs ctx event rest true) as [calls r]. cbn in *.
      rewrite IH. by rewrite orb_true_r.
    + apply IH.
Qed.

Lemma matchingRules_nonempty h ctx bucket_rules :
  matchingRules h ctx bucket_rules ≠ []
  ↔ ∃ rule, rule ∈ bucket_rules ∧ Evaluator_Eval (h !!! Rule_Rule rule) ctx = true.
Proof.
  unfold matchingRules. split.
  - intros Hne.
    destruct (List.filter _ bucket_rules) as [|rule l] eqn:E; [done|].
    assert (In rule (List.filter (λ rule, Evaluator_Eval (h !!! Rule_Rule rule) ctx)
                       bucket_rules)) as Hin by (rewrite E; by left).
    apply filter_In in Hin as [Hin Hev].
    exists rule. split; [by apply list_elem_of_In | done].
  - intros (rule & Hin & Hev) E.
    assert (In rule (List.filter (λ rule, Evaluator_Eval (h !!! Rule_Rule rule) ctx)
                       bucket_rules)) as Hin'.
    { apply filter_In. split; [by apply list_elem_of_In | done]. }
    rewrite E in Hin'. destruct Hin'.
Qed.

Lemma isDiscarder_rules_spec h ctx field bucket_rules :
  isDiscarder_rules h ctx field bucket_rules = true
  ↔ Forall (partialFalse h ctx field) bucket_rules.
Proof.
  induction bucket_rules as [|rule rest IH]; cbn.
  - split; [by constructor | done].
  - pose proof (partial_blocks_iff h ctx field rule) as Hb.
    destruct (Rule_PartialEval (h !!! Rule_Rule rule) ctx field) as [isTrue err].
    destruct (bool_decide (err ≠ None) || isTrue).
    + split; [done|]. intros HF. inversion HF as [|? ? Hp _]; subst.
      apply Hb in Hp. done.
    + rewrite IH. split.
      * intros HF. constructor; [by apply Hb | done].
      * intros HF. by inversion HF.
Qed.

Lemma Evaluate_fields_spec h rs ctx event eventType bucket bucket_fields :
  Evaluate_fields h rs ctx event eventType bucket bucket_fields
  = List.filter
      (λ field, discarderSupported rs field
                && bool_decide (Forall (partialFalse h ctx field) (rb_rules bucket)))
      bucket_fields
    ≫= λ field, NotifyDiscarderFound rs event field eventType.
Proof.
  induction bucket_fields as [|field rest IH]; cbn; [done|].
  destruct (discarderSupported rs field); cbn; [|done].
  pose proof (isDiscarder_rules_spec h ctx field (rb_rules bucket)) as Hd.
  destruct (isDiscarder_rules h ctx field (rb_rules bucket)).
  - rewrite bool_decide_eq_true_2 by (by apply Hd). cbn. by rewrite IH.
  - rewrite bool_decide_eq_false_2; [done|].
    intros HF. apply Hd in HF. done.
Qed.

Lemma filter_bind_all {A : Type} (p : ListenerCall → bool) (f : A → list ListenerCall)
    (l : list A) :
  (∀ x c, c ∈ f x → p c = true) → List.filter p (l ≫= f) = l ≫= f.
Proof.
  intros Hp. induction l as [|x l IH]; cbn; [done|].
  rewrite List.filter_app, IH. f_equal.
  clear IH. assert (∀ c, c ∈ f x → p c = true) as H by eauto.
  induction (f x) as [|c cs IHc]; cbn; [done|].
  rewrite (H c) by (by left). f_equal. apply IHc. intros c' Hc'. apply H. by right.
Qed.

Lemma filter_bind_none {A : Type} (p : ListenerCall → bool) (f : A → list ListenerCall)
    (l : list A) :
  (∀ x c, c ∈ f x → p c = false) → List.filter p (l ≫= f) = [].
Proof.
  intros Hp. induction l as [|x l IH]; cbn; [done|].
  rewrite List.filter_app, IH, app_nil_r.
  assert (∀ c, c ∈ f x → p c = false) as H by eauto.
  induction (f x) as [|c cs IHc]; cbn; [done|].
  rewrite (H c) by (by left). apply IHc. intros c' Hc'. apply H. by right.
Qed.

Lemma NotifyRuleMatch_is_RuleMatch rs rule event c :
  c ∈ NotifyRuleMatch rs rule event →
  is_RuleMatch c = true ∧ is_EventDiscarderFound c = false.
Proof.
  unfold NotifyRuleMatch. intros Hc. apply list_elem_of_fmap in Hc as (l & -> & _). done.
Qed.

Lemma NotifyDiscarderFound_is_EventDiscarderFound rs event field eventType c :
  c ∈ NotifyDiscarderFound rs event field eventType →
  is_RuleMatch c = false ∧ is_EventDiscarderFound c = true.
Proof.
  unfold NotifyDiscarderFound. intros Hc.
  apply list_elem_of_fmap in Hc as (l & -> & _). done.
Qed.

(** What [Evaluate] does when the event type has a bucket, in one equation. *)
Lemma Evaluate_bucket h event rs bucket :
  eventRuleBuckets rs !! Event_GetType event = Some bucket →
  let ctx := mk_Context event in
  let matching := matchingRules h ctx (rb_rules bucket) in
  (Evaluate h event rs).2
  = ((matching ≫= λ rule, NotifyRuleMatch rs rule event)
       ++ (if bool_decide (matching ≠ []) then []
           else discarderFields h rs ctx bucket
                  ≫= λ field, NotifyDiscarderFound rs event field (Event_GetType event)),
     bool_decide (matching ≠ [])).
Proof.
  intros Hb ctx matching. unfold Evaluate. cbn. rewrite Hb.
  pose proof (Evaluate_rules_calls h rs ctx event (rb_rules bucket) false) as Hc.
  pose proof (Evaluate_rules_result h rs ctx event (rb_rules bucket) false) as Hr.
  fold ctx.
  destruct (Evaluate_rules h rs ctx event (rb_rules bucket) false) as [calls result].
  cbn in Hc, Hr. subst calls result. fold matching.
  destruct (bool_decide (matching ≠ [])); cbn.
  - by rewrite app_nil_r.
  - by rewrite Evaluate_fields_spec.
Qed.

Lemma Evaluate_no_bucket h event rs :
  eventRuleBuckets rs !! Event_GetType event = None →
  (Evaluate h event rs).2 = ([], false).
Proof. intros Hb. unfold Evaluate. cbn. by rewrite Hb. Qed.

Lemma omap_bind_list {A B C : Type} (g : B → option C) (f : A → list B) (l : list A) :
  omap g (l ≫= f) = l ≫= λ x, omap g (f x).
Proof.
  induction l as [|x l IH]; cbn; [done|]. by rewrite omap_app, IH.
Qed.

Lemma bind_nil_all {A B : Type} (f : A → list B) (l : list A) :
  (∀ x, f x = []) → l ≫= f = [].
Proof. intros Hf. induction l as [|x l IH]; cbn; [done|]. by rewrite Hf, IH. Qed.

Lemma rulesNotifiedTo_app l calls1 calls2 :
  rulesNotifiedTo l (calls1 ++ calls2)
  = rulesNotifiedTo l calls1 ++ rulesNotifiedTo l calls2.
Proof. apply omap_app. Qed.

Lemma discardersNotifiedTo_app l calls1 calls2 :
  discardersNotifiedTo l (calls1 ++ calls2)
  = discardersNotifiedTo l calls1 ++ discardersNotifiedTo l calls2.
Proof. apply omap_app. Qed.

Lemma rulesNotifiedTo_NotifyRuleMatch l rs rule event :
  rulesNotifiedTo l (NotifyRuleMatch rs rule event) = replicate (registrations rs l) rule.
Proof.
  unfold rulesNotifiedTo, NotifyRuleMatch, registrations.
  induction (listeners rs) as [|l' ls IH]; cbn; [done|].
  destruct (decide (l' = l)) as [->|Hne].
  - rewrite bool_decide_eq_true_2 by done. cbn. by rewrite IH.
  - rewrite bool_decide_eq_false_2 by done. by rewrite IH.
Qed.

Lemma rulesNotifiedTo_NotifyDiscarderFound l rs event field eventType :
  rulesNotifiedTo l (NotifyDiscarderFound rs event field eventType) = [].
Proof.
  unfold rulesNotifiedTo, NotifyDiscarderFound.
  by induction (listeners rs) as [|l' ls IH].
Qed.

Lemma discardersNotifiedTo_NotifyDiscarderFound l rs event field eventType :
  discardersNotifiedTo l (NotifyDiscarderFound rs event field eventType)
  = replicate (registrations rs l) (field, eventType).
Proof.
  unfold discardersNotifiedTo, NotifyDiscarderFound, registrations.
  induction (listeners rs) as [|l' ls IH]; cbn; [done|].
  destruct (decide (l' = l)) as [->|Hne].
  - rewrite bool_decide_eq_true_2 by done. cbn. by rewrite IH.
  - rewrite bool_decide_eq_false_2 by done. by rewrite IH.
Qed.

Lemma discardersNotifiedTo_NotifyRuleMatch l rs rule event :
  discardersNotifiedTo l (NotifyRuleMatch rs rule event) = [].
Proof.
  unfold discardersNotifiedTo, NotifyRuleMatch.
  by induction (listeners rs) as [|l' ls IH].
Qed.

(** C1. [Evaluate] returns true exactly when some rule of the bucket of the
    event's type evaluates to true on the event.  Every rule of the bucket is
    evaluated, also after a match: the [RuleMatch] calls are, for each
    matching rule of the bucket in turn, one call on each registered
    listener, so that a listener hears of each matching rule once per
    registration.  Without a bucket for the event's type the result is false
    and no listener is called. *)
Theorem Evaluate_rule_matches h event rs :
  let ctx := mk_Context event in
  let calls := (Evaluate h event rs).2.1 in
  let result := (Evaluate h event rs).2.2 in
  match eventRuleBuckets rs !! Event_GetType event with
  | None => result = false ∧ calls = []
  | Some bucket =>
    let matching := matchingRules h ctx (rb_rules bucket) in
    (result = true
     ↔ ∃ rule, rule ∈ rb_rules bucket
               ∧ Evaluator_Eval (h !!! Rule_Rule rule) ctx = true)
    ∧ (∀ rule, rule ∈ matching
               ↔ rule ∈ rb_rules bucket
                 ∧ Evaluator_Eval (h !!! Rule_Rule rule) ctx = true)
    ∧ List.filter is_RuleMatch calls
      = (matching ≫= λ rule, NotifyRuleMatch rs rule event)
    ∧ (∀ l, rulesNotifiedTo l calls
            = matching ≫= λ rule, replicate (registrations rs l) rule)
  end.
Proof.
  intros ctx calls result. subst calls result.
  destruct (eventRuleBuckets rs !! Event_GetType event) as [bucket|] eqn:Hb.
  - intros matching. rewrite (Evaluate_bucket h event rs bucket Hb). cbn [fst snd].
    fold ctx. fold matching.
    split; [|split; [|split]].
    + rewrite bool_decide_eq_true. apply matchingRules_nonempty.
    + intros rule. unfold matching, matchingRules.
      rewrite list_elem_of_In, filter_In, <- list_elem_of_In. done.
    + rewrite List.filter_app. rewrite filter_bind_all.
      2:{ intros x c Hc. by apply NotifyRuleMatch_is_RuleMatch in Hc as [? _]. }
      destruct (bool_decide (matching ≠ [])); cbn; [by rewrite app_nil_r|].
      rewrite filter_bind_none; [by rewrite app_nil_r|].
      intros x c Hc. by apply NotifyDiscarderFound_is_EventDiscarderFound in Hc as [? _].
    + intros l. rewrite rulesNotifiedTo_app.
      assert (rulesNotifiedTo l
                (if bool_decide (matching ≠ []) then []
                 else discarderFields h rs ctx bucket
                        ≫= λ field, NotifyDiscarderFound rs event field (Event_GetType event))
              = []) as ->.
      { destruct (bool_decide (matching ≠ [])); [done|].
        unfold rulesNotifiedTo. rewrite omap_bind_list. apply bind_nil_all.
        intros field. apply rulesNotifiedTo_NotifyDiscarderFound. }
      rewrite app_nil_r. unfold rulesNotifiedTo. rewrite omap_bind_list.
      induction matching as [|rule m IH]; cbn [mbind list_bind]; [done|].
      f_equal; [apply rulesNotifiedTo_NotifyRuleMatch | apply IH].
  - by rewrite (Evaluate_no_bucket h event rs Hb).
Qed.

Lemma IsDiscarder_rules_all h ctx field bucket_rules :
  Forall (partialFalse h ctx field) bucket_rules →
  IsDiscarder_rules h ctx field bucket_rules = (true, None).
Proof.
  induction 1 as [|rule rest Hp _ IH]; cbn; [done|].
  apply partial_blocks_iff in Hp.
  destruct (Rule_PartialEval (h !!! Rule_Rule rule) ctx field) as [isTrue err].
  by rewrite Hp.
Qed.

Lemma IsDiscarder_rules_first h ctx field pre rule post :
  Forall (partialFalse h ctx field) pre →
  ¬ partialFalse h ctx field rule →
  IsDiscarder_rules h ctx field (pre ++ rule :: post)
  = (false, (Rule_PartialEval (h !!! Rule_Rule rule) ctx field).2).
Proof.
  intros Hpre Hrule. induction Hpre as [|r rest Hp _ IH]; cbn.
  - pose proof (partial_blocks_iff h ctx field rule) as Hb.
    destruct (Rule_PartialEval (h !!! Rule_Rule rule) ctx field) as [isTrue err].
    destruct (bool_decide (err ≠ None) || isTrue); [done|].
    destruct Hrule. by apply Hb.
  - apply partial_blocks_iff in Hp.
    destruct (Rule_PartialEval (h !!! Rule_Rule r) ctx field) as [isTrue err].
    by rewrite Hp.
Qed.

Lemma IsDiscarder_rules_true h ctx field bucket_rules :
  IsDiscarder_rules h ctx field bucket_rules = (true, None)
  ↔ Forall (partialFalse h ctx field) bucket_rules.
Proof.
  split; [|apply IsDiscarder_rules_all].
  induction bucket_rules as [|rule rest IH]; cbn; [by constructor|].
  pose proof (partial_blocks_iff h ctx field rule) as Hb.
  destruct (Rule_PartialEval (h !!! Rule_Rule rule) ctx field) as [isTrue err].
  destruct (bool_decide (err ≠ None) || isTrue); [done|].
  intros H. constructor; [by apply Hb | by apply IH].
Qed.

Lemma IsDiscarder_rules_fst h ctx field bucket_rules :
  (IsDiscarder_rules h ctx field bucket_rules).1 = true
  → IsDiscarder_rules h ctx field bucket_rules = (true, None).
Proof.
  induction bucket_rules as [|rule rest IH]; cbn; [done|].
  destruct (Rule_PartialEval (h !!! Rule_Rule rule) ctx field) as [isTrue err].
  by destruct (bool_decide (err ≠ None) || isTrue).
Qed.

(** C2. [IsDiscarder] returns [(true, nil)] exactly when the event type of
    the field resolves, has a bucket, and every rule of that bucket partially
    evaluates to false on the field without error.  In every other case the
    boolean is false, and the error is the resolution error, or the missing
    bucket error, or what the first rule that does not partially evaluate to
    false without error returned as its error (nil when it just was true). *)
Theorem IsDiscarder_result h event field rs :
  let ctx := mk_Context event in
  let out := (IsDiscarder h event field rs).2 in
  let eventType := (Event_GetFieldEventType event field).1 in
  let resolveErr := (Event_GetFieldEventType event field).2 in
  (out = (true, None)
   ↔ resolveErr = None
     ∧ ∃ bucket, eventRuleBuckets rs !! eventType = Some bucket
                 ∧ Forall (partialFalse h ctx field) (rb_rules bucket))
  ∧ (out.1 = true → out = (true, None))
  ∧ match resolveErr with
    | Some err => out = (false, Some err)
    | None =>
      match eventRuleBuckets rs !! eventType with
      | None => out = (false, Some (ErrNoEventTypeBucket eventType))
      | Some bucket =>
        ∀ pre rule post,
          rb_rules bucket = pre ++ rule :: post →
          Forall (partialFalse h ctx field) pre →
          ¬ partialFalse h ctx field rule →
          out = (false, (Rule_PartialEval (h !!! Rule_Rule rule) ctx field).2)
      end
    end.
Proof.
  intros ctx out eventType resolveErr. subst out eventType resolveErr.
  unfold IsDiscarder.
  destruct (Event_GetFieldEventType event field) as [eventType [err|]]; cbn [fst snd].
  - split; [|done]. split; [done | by intros []].
  - destruct (eventRuleBuckets rs !! eventType) as [bucket|] eqn:Hb; cbn [fst snd].
    + unfold ContextPool_Get. cbn [fst snd]. fold ctx. split; [|split].
      * rewrite IsDiscarder_rules_true. split.
        -- intros HF. split; [done|]. by exists bucket.
        -- intros (_ & b & [= <-] & HF). done.
      * apply IsDiscarder_rules_fst.
      * intros pre rule post -> Hpre Hrule. by apply IsDiscarder_rules_first.
    + split; [|done]. split; [done|]. by intros (_ & b & ? & _).
Qed.

Lemma Evaluate_rs h event rs :
  (Evaluate h event rs).1 = set_pool (pool (Evaluate h event rs).1) rs.
Proof. done. Qed.

Lemma discarderSupported_spec rs field :
  discarderSupported rs field = true
  ↔ ∀ supported, SupportedDiscarders (opts rs) = Some supported →
                 is_Some (supported !! field).
Proof.
  unfold discarderSupported.
  destruct (SupportedDiscarders (opts rs)) as [supported|].
  - rewrite bool_decide_eq_true. split; [by intros H ? [= <-] | eauto].
  - split; [by intros _ ? [=] | done].
Qed.

Lemma elem_of_discarderFields h rs ctx bucket field :
  field ∈ discarderFields h rs ctx bucket
  ↔ field ∈ rb_fields bucket
    ∧ (∀ supported, SupportedDiscarders (opts rs) = Some supported →
                    is_Some (supported !! field))
    ∧ Forall (partialFalse h ctx field) (rb_rules bucket).
Proof.
  unfold discarderFields.
  rewrite list_elem_of_In, filter_In, <- list_elem_of_In, andb_true_iff,
    bool_decide_eq_true, discarderSupported_spec.
  done.
Qed.

Lemma elem_of_List_filter {A : Type} (p : A → bool) (l : list A) (x : A) :
  x ∈ List.filter p l ↔ x ∈ l ∧ p x = true.
Proof. by rewrite list_elem_of_In, filter_In, <- list_elem_of_In. Qed.

Lemma NoDup_List_filter {A : Type} (p : A → bool) (l : list A) :
  NoDup l → NoDup (List.filter p l).
Proof.
  induction 1 as [|x l Hx _ IH]; cbn; [constructor|].
  destruct (p x); [|done].
  constructor; [|done]. rewrite elem_of_List_filter. by intros [? _].
Qed.

Lemma bind_singleton_fmap {A B : Type} (f : A → B) (l : list A) :
  (l ≫= λ x, replicate 1 (f x)) = f <$> l.
Proof.
  induction l as [|x l IH]; [done|].
  change ((x :: l) ≫= λ x, replicate 1 (f x))
    with (f x :: (l ≫= λ x, replicate 1 (f x))).
  by rewrite IH.
Qed.

(** C3. When the event's type has a bucket and no rule of it matched,
    [Evaluate] goes through the fields of the bucket: a field is found to be
    a discarder exactly when it is let through by [SupportedDiscarders]
    (which is nil, or has the field among its keys) and every rule of the
    bucket partially evaluates to false on it without error.  The
    [EventDiscarderFound] calls are, for each field found in turn, one call
    on each registered listener; with no field twice in the bucket's list, a
    listener registered once hears of a field exactly once if it is found and
    never otherwise.  When a rule matched there is no such call. *)
Theorem Evaluate_discarders h event rs bucket :
  eventRuleBuckets rs !! Event_GetType event = Some bucket →
  let ctx := mk_Context event in
  let eventType := Event_GetType event in
  let calls := (Evaluate h event rs).2.1 in
  let result := (Evaluate h event rs).2.2 in
  let found := discarderFields h rs ctx bucket in
  (∀ field,
     field ∈ found
     ↔ field ∈ rb_fields bucket
       ∧ (∀ supported, SupportedDiscarders (opts rs) = Some supported →
                       is_Some (supported !! field))
       ∧ Forall (partialFalse h ctx field) (rb_rules bucket))
  ∧ (result = false →
     List.filter is_EventDiscarderFound calls
     = (found ≫= λ field, NotifyDiscarderFound rs event field eventType)
     ∧ ∀ l, discardersNotifiedTo l calls
            = found ≫= λ field, replicate (registrations rs l) (field, eventType))
  ∧ (result = true → List.filter is_EventDiscarderFound calls = [])
  ∧ (NoDup (rb_fields bucket) →
     ∀ l, registrations rs l = 1 → result = false →
          NoDup (discardersNotifiedTo l calls)
          ∧ ∀ field, (field, eventType) ∈ discardersNotifiedTo l calls ↔ field ∈ found).
Proof.
  intros Hb ctx eventType calls result found. subst calls result.
  rewrite (Evaluate_bucket h event rs bucket Hb). cbn [fst snd].
  fold ctx eventType found.
  set (matching := matchingRules h ctx (rb_rules bucket)).
  assert (∀ l : nat,
            discardersNotifiedTo l (matching ≫= λ rule, NotifyRuleMatch rs rule event) = [])
    as Hnone.
  { intros l. unfold discardersNotifiedTo. rewrite omap_bind_list.
    apply bind_nil_all. intros rule. apply discardersNotifiedTo_NotifyRuleMatch. }
  assert (bool_decide (matching ≠ []) = false →
          ∀ l : nat,
            discardersNotifiedTo l
              ((matching ≫= λ rule, NotifyRuleMatch rs rule event)
                 ++ (if bool_decide (matching ≠ []) then []
                     else found ≫= λ field, NotifyDiscarderFound rs event field eventType))
            = found ≫= λ field, replicate (registrations rs l) (field, eventType))
    as Hto.
  { intros -> l. rewrite discardersNotifiedTo_app, Hnone. cbn [app].
    unfold discardersNotifiedTo. rewrite omap_bind_list.
    induction found as [|field fs IH]; cbn [mbind list_bind]; [done|].
    f_equal; [apply discardersNotifiedTo_NotifyDiscarderFound | apply IH]. }
  split; [|split; [|split]].
  - intros field. apply elem_of_discarderFields.
  - intros Hres. split; [|by apply Hto].
    rewrite Hres, List.filter_app, filter_bind_none.
    2:{ intros x c Hc. by apply NotifyRuleMatch_is_RuleMatch in Hc as [_ ?]. }
    cbn [app]. apply filter_bind_all.
    intros x c Hc. by apply NotifyDiscarderFound_is_EventDiscarderFound in Hc as [_ ?].
  - intros ->. rewrite app_nil_r. apply filter_bind_none.
    intros x c Hc. by apply NotifyRuleMatch_is_RuleMatch in Hc as [_ ?].
  - intros Hnd l Hl Hres. rewrite (Hto Hres l), Hl.
    rewrite (bind_singleton_fmap (λ field, (field, eventType))).
    split.
    + apply NoDup_fmap_2; [by intros ?? [=]|].
      unfold found, discarderFields. by apply NoDup_List_filter.
    + intros field. rewrite list_elem_of_fmap. split.
      * by intros (f & [= <-] & Hf).
      * intros Hf. by exists field.
Qed.

(** * Approvers and policy versions *)

Lemma GetApprovers_step_approversOf h rs fieldCaps approvers eventType :
  GetApprovers_step h rs fieldCaps approvers eventType
  = match approversOf h rs fieldCaps eventType with
    | Some eventApprovers => <[eventType := eventApprovers]> approvers
    | None => approvers
    end.
Proof.
  unfold GetApprovers_step, approversOf.
  destruct (fieldCaps !! eventType) as [caps|]; [|done].
  by destruct (GetEventApprovers h rs eventType caps) as [a [err|]].
Qed.

Lemma GetApprovers_fold h rs fieldCaps eventTypes approvers eventType :
  foldl (GetApprovers_step h rs fieldCaps) approvers eventTypes !! eventType
  = if decide (eventType ∈ eventTypes)
    then match approversOf h rs fieldCaps eventType with
         | Some eventApprovers => Some eventApprovers
         | None => approvers !! eventType
         end
    else approvers !! eventType.
Proof.
  revert approvers. induction eventTypes as [|et ets IH]; intros approvers; cbn.
  - done.
  - rewrite IH, GetApprovers_step_approversOf.
    destruct (decide (eventType = et)) as [->|Hne].
    + rewrite (decide_True (P := et ∈ et :: ets)) by (by left).
      destruct (approversOf h rs fieldCaps et) as [a|].
      * rewrite lookup_insert_eq. by destruct (decide (et ∈ ets)).
      * by destruct (decide (et ∈ ets)).
    + assert (match approversOf h rs fieldCaps et with
              | Some eventApprovers => <[et := eventApprovers]> approvers
              | None => approvers
              end !! eventType = approvers !! eventType) as ->.
      { destruct (approversOf h rs fieldCaps et); [|done].
        by rewrite lookup_insert_ne. }
      destruct (decide (eventType ∈ ets)) as [Hin|Hnin].
      * rewrite (decide_True (P := eventType ∈ et :: ets)) by (by right). done.
      * rewrite (decide_False (P := eventType ∈ et :: ets)); [done|].
        intros [?|?]%elem_of_cons; done.
Qed.

Lemma elem_of_GetEventTypes rs eventType :
  eventType ∈ GetEventTypes rs ↔ is_Some (eventRuleBuckets rs !! eventType).
Proof.
  unfold GetEventTypes. rewrite list_elem_of_fmap. split.
  - intros ([et b] & -> & Hin). apply elem_of_map_to_list in Hin. by exists b.
  - intros [b Hb]. exists (eventType, b). split; [done|].
    by apply elem_of_map_to_list.
Qed.

(** C9. [GetApprovers] never returns an error.  Its result holds an entry
    for an event type exactly when the event type has a bucket, capabilities
    were supplied for it, and [GetEventApprovers] succeeded on it, and the
    entry is what [GetEventApprovers] returned: an event type without
    capabilities, or whose resolution fails, is left out.
    [GetEventApprovers] fails with the missing bucket error on an event type
    without bucket. *)
Theorem GetApprovers_best_effort h rs fieldCaps :
  (GetApprovers h rs fieldCaps).2 = None
  ∧ (∀ eventType eventApprovers,
       (GetApprovers h rs fieldCaps).1 !! eventType = Some eventApprovers
       ↔ is_Some (eventRuleBuckets rs !! eventType)
         ∧ ∃ caps, fieldCaps !! eventType = Some caps
                   ∧ GetEventApprovers h rs eventType caps = (eventApprovers, None))
  ∧ (∀ eventType caps,
       eventRuleBuckets rs !! eventType = None →
       GetEventApprovers h rs eventType caps
       = (Approvers_nil, Some (ErrNoEventTypeBucket eventType))).
Proof.
  split; [done|]. split.
  - intros eventType eventApprovers. unfold GetApprovers. cbn [fst].
    rewrite GetApprovers_fold, lookup_empty.
    destruct (decide (eventType ∈ GetEventTypes rs)) as [Hin|Hnin].
    + apply elem_of_GetEventTypes in Hin. unfold approversOf.
      destruct (fieldCaps !! eventType) as [caps|].
      * destruct (GetEventApprovers h rs eventType caps) as [a [err|]] eqn:E.
        -- split; [done|]. intros (_ & caps' & ? & ?). simplify_eq. congruence.
        -- split.
           ++ intros [= ->]. split; [done|]. by exists caps.
           ++ intros (_ & caps' & ? & ?). simplify_eq. congruence.
      * split; [done|]. intros (_ & caps' & ? & _). simplify_eq.
    + split; [done|]. intros (Hb & _). by apply elem_of_GetEventTypes in Hb.
  - intros eventType caps Hb. unfold GetEventApprovers. by rewrite Hb.
Qed.

Lemma ReplaceAll_from_dot s :
  ReplaceAll_from 0 s "." "_" = dotsToUnderscores s.
Proof.
  induction s as [|c s IH]; [done|].
  cbn [ReplaceAll_from dotsToUnderscores String.prefix].
  destruct (ascii_dec "."%char c) as [<-|Hne].
  - replace (String.prefix "" s) with true by (by destruct s).
    cbn. by rewrite IH.
  - rewrite IH. rewrite (proj2 (Ascii.eqb_neq c "."%char)); [done|]. congruence.
Qed.

Lemma ReplaceAll_dot s : ReplaceAll s "." "_" = dotsToUnderscores s.
Proof. apply ReplaceAll_from_dot. Qed.

(** C10. [AddPolicyVersion] stores the version under the file name with
    every ['.'] turned into ['_'].  Two file names that are the same after
    that step share a key, so the later call overwrites the earlier version:
    the map is as if the earlier call had not been made.  ["a.b"] and
    ["a_b"] are such a pair. *)
Theorem AddPolicyVersion_key rs filename version :
  loadedPolicies (AddPolicyVersion filename version rs)
  = <[dotsToUnderscores filename := version]> (loadedPolicies rs)
  ∧ (∀ filename' version',
       dotsToUnderscores filename' = dotsToUnderscores filename →
       loadedPolicies (AddPolicyVersion filename' version'
                         (AddPolicyVersion filename version rs))
       = loadedPolicies (AddPolicyVersion filename' version' rs)
       ∧ loadedPolicies (AddPolicyVersion filename' version'
                           (AddPolicyVersion filename version rs))
           !! dotsToUnderscores filename = Some version')
  ∧ dotsToUnderscores "a.b" = "a_b"
  ∧ dotsToUnderscores "a_b" = "a_b".
Proof.
  split; [|split; [|done]].
  - unfold AddPolicyVersion, set_loadedPolicies. cbn [loadedPolicies].
    by rewrite ReplaceAll_dot.
  - intros filename' version' Heq.
    unfold AddPolicyVersion, set_loadedPolicies. cbn [loadedPolicies].
    rewrite !ReplaceAll_dot, Heq. split.
    + apply insert_insert_eq.
    + apply lookup_insert_eq.
Qed.

(** * Loading rules *)

Lemma GetRuleEventType_Ok rule eventType :
  GetRuleEventType rule = Ok eventType → Evaluator_EventTypes rule = [eventType].
Proof.
  unfold GetRuleEventType, Rule_GetEventTypes.
  destruct (Rule_GetEventTypes_err rule); [done|].
  destruct (Evaluator_EventTypes rule) as [|et [|et' ets]]; [done| |done].
  by intros [= ->].
Qed.

Lemma alloc_lookup (h : list eval_Rule) (r : eval_Rule) :
  (h ++ [r]) !!! length h = r.
Proof.
  apply list_lookup_total_correct.
  rewrite lookup_app_r by lia. by rewrite Nat.sub_diag.
Qed.

Lemma bind_get_rs {A : Type} (f : RuleSet → M A) (st : St) :
  (get_rs ≫= f) st = f st.2 st.
Proof. done. Qed.

Lemma addToBucket_eq rule eventType h rs :
  addToBucket rule eventType (h, rs)
  = match RuleBucket_AddRule_err h (bucketFor rs eventType) rule with
    | Some err =>
      ((h, set_eventRuleBuckets
             (<[eventType := bucketFor rs eventType]> (eventRuleBuckets rs)) rs),
       Err err)
    | None =>
      ((h, set_eventRuleBuckets
             (<[eventType :=
                  mkRuleBucket (rb_rules (bucketFor rs eventType) ++ [rule])
                    (mergeFields (rb_fields (bucketFor rs eventType))
                       (Evaluator_GetFields (h !!! Rule_Rule rule)))]>
                (eventRuleBuckets rs)) rs),
       Ok tt)
    end.
Proof.
  unfold addToBucket, bucketFor, RuleBucket_AddRule.
  destruct (eventRuleBuckets rs !! eventType) as [bucket|] eqn:Hb;
    cbn [from_option id].
  - by destruct (RuleBucket_AddRule_err h bucket rule).
  - destruct (RuleBucket_AddRule_err h (mkRuleBucket [] []) rule);
      unfold set_eventRuleBuckets; cbn; by rewrite insert_insert_eq.
Qed.

(** The end of [AddRule], from the allocation of the rule object on, for a
    rule with one event type. *)
Lemma AddRule_store ruleDef eventType h rs :
  Evaluator_EventTypes (compiledRule rs ruleDef) = [eventType] →
  (new_rule (compiledRule rs ruleDef) ≫= λ p,
     forM_ (addToBucket (mkRule p ruleDef)) (Evaluator_EventTypes (compiledRule rs ruleDef))
       ≫= λ _, modify_rs (AddFields (Evaluator_GetFields (compiledRule rs ruleDef)))
       ≫= λ _, modify_rs (λ rs, set_rules (<[rd_ID ruleDef := mkRule p ruleDef]> (rules rs)) rs)
       ≫= λ _, mret p) (h, rs)
  = match RuleBucket_AddRule_err (h ++ [compiledRule rs ruleDef])
            (bucketFor rs eventType) (mkRule (length h) ruleDef) with
    | Some err => (refusedRule ruleDef eventType (h, rs), Err err)
    | None => (storedRule ruleDef eventType (h, rs), Ok (length h))
    end.
Proof.
  intros ->. unfold mbind at 1. unfold M_bind at 1. unfold new_rule, alloc. cbn [fst snd].
  unfold mbind at 1. unfold M_bind at 1. cbn [forM_].
  unfold mbind at 1. unfold M_bind at 1. rewrite addToBucket_eq.
  cbn [Rule_Rule]. rewrite alloc_lookup.
  destruct (RuleBucket_AddRule_err _ _ _) as [err|]; [done|].
  done.
Qed.

(** [AddRule] takes one of the ways of [AddRule_case]. *)
Lemma AddRule_spec ruleDef st :
  AddRule_case ruleDef st (AddRule ruleDef st).1 (AddRule ruleDef st).2.
Proof.
  destruct st as [h rs].
  unfold AddRule. rewrite bind_get_rs. cbn [fst snd].
  destruct (bool_decide (rd_ID ruleDef ∈ ReservedRuleIDs (opts rs))) eqn:Hres.
  { apply bool_decide_eq_true in Hres. by apply AddRule_reserved. }
  apply bool_decide_eq_false in Hres.
  destruct (rules rs !! rd_ID ruleDef) as [r|] eqn:Hdup.
  { apply AddRule_duplicate; [done|]. cbn. by rewrite Hdup. }
  cbv zeta.
  set (rule0 := mk_eval_Rule (rd_ID ruleDef) (rd_Expression ruleDef) _ RuleState_zero).
  assert (parseError ruleDef = (Rule_Parse rule0).2) as Hp by done.
  assert (parsedRule ruleDef
          = mk_eval_Rule (er_ID rule0) (er_Expression rule0) (er_Tags rule0)
              (Rule_Parse rule0).1) as Hpr by done.
  destruct (Rule_Parse rule0) as [s1 perr]. cbn [fst snd] in Hp, Hpr.
  destruct perr as [err|].
  { by apply AddRule_syntax. }
  rewrite <- Hpr. clear Hpr.
  assert (compileError rs ruleDef
          = (Rule_GenEvaluator (model rs) (Opts_Opts (opts rs)) (parsedRule ruleDef)).2)
    as Hc by done.
  assert (compiledRule rs ruleDef
          = mk_eval_Rule (er_ID (parsedRule ruleDef)) (er_Expression (parsedRule ruleDef))
              (er_Tags (parsedRule ruleDef))
              (Rule_GenEvaluator (model rs) (Opts_Opts (opts rs)) (parsedRule ruleDef)).1)
    as Hcr by done.
  destruct (Rule_GenEvaluator _ _ _) as [s2 gerr]. cbn [fst snd] in Hc, Hcr.
  destruct gerr as [err|].
  { by apply AddRule_compilation. }
  rewrite <- Hcr. clear Hcr.
  destruct (GetRuleEventType (compiledRule rs ruleDef)) as [eventType|err] eqn:Het.
  2:{ by apply AddRule_eventType. }
  pose proof (GetRuleEventType_Ok _ _ Het) as Hets.
  pose proof (AddRule_store ruleDef eventType h rs Hets) as Hstore.
  assert (is_Some (EventTypeEnabled (opts rs) !! "*")
          ∨ is_Some (EventTypeEnabled (opts rs) !! eventType) →
          AddRule_case ruleDef (h, rs)
            (match RuleBucket_AddRule_err (h ++ [compiledRule rs ruleDef])
                     (bucketFor rs eventType) (mkRule (length h) ruleDef) with
             | Some err => (refusedRule ruleDef eventType (h, rs), Err err)
             | None => (storedRule ruleDef eventType (h, rs), Ok (length h))
             end).1
            (match RuleBucket_AddRule_err (h ++ [compiledRule rs ruleDef])
                     (bucketFor rs eventType) (mkRule (length h) ruleDef) with
             | Some err => (refusedRule ruleDef eventType (h, rs), Err err)
             | None => (storedRule ruleDef eventType (h, rs), Ok (length h))
             end).2) as Hcase.
  { intros Hen.
    destruct (RuleBucket_AddRule_err _ _ _) as [err|] eqn:Hb; cbn [fst snd].
    - by apply (AddRule_refused ruleDef (h, rs) eventType err).
    - by apply (AddRule_stored ruleDef (h, rs) eventType). }
  destruct (EventTypeEnabled (opts rs) !! "*") as [b1|] eqn:H1.
  { rewrite Hstore. apply Hcase. left. by eexists. }
  destruct (EventTypeEnabled (opts rs) !! eventType) as [b2|] eqn:H2.
  { rewrite Hstore. apply Hcase. right. by eexists. }
  by apply AddRule_disabled with eventType.
Qed.

(** ** Field lists *)

Lemma hasField_spec fs f : hasField fs f = true ↔ f ∈ fs.
Proof.
  induction fs as [|f' fs IH]; cbn.
  - split; [done | by intros ?%elem_of_nil].
  - destruct (String.eqb_spec f' f) as [->|Hne].
    + split; [by left | done].
    + rewrite IH, elem_of_cons. split; [by right | by intros [->|?]].
Qed.

Lemma addField_spec fs f :
  addField fs f = if decide (f ∈ fs) then fs else fs ++ [f].
Proof.
  unfold addField. pose proof (hasField_spec fs f) as H.
  destruct (hasField fs f), (decide (f ∈ fs)); try done.
  - destruct n. by apply H.
  - by apply H in e.
Qed.

Lemma mergeFields_firstNew fs newFields :
  mergeFields fs newFields = fs ++ firstNew fs newFields.
Proof.
  unfold mergeFields. revert fs.
  induction newFields as [|f rest IH]; intros fs; cbn.
  - by rewrite app_nil_r.
  - rewrite IH, addField_spec. destruct (decide (f ∈ fs)); [done|].
    by rewrite <- app_assoc.
Qed.

Lemma elem_of_firstNew seen newFields f :
  f ∈ firstNew seen newFields ↔ f ∈ newFields ∧ f ∉ seen.
Proof.
  revert seen. induction newFields as [|f' rest IH]; intros seen; cbn.
  - split; [by intros ?%elem_of_nil | by intros [?%elem_of_nil _]].
  - destruct (decide (f' ∈ seen)) as [Hin|Hnin].
    + rewrite IH, elem_of_cons. split.
      * intros [? ?]. split; [by right | done].
      * intros [[->|?] ?]; done.
    + rewrite !elem_of_cons, IH, elem_of_app, list_elem_of_singleton.
      destruct (decide (f = f')) as [->|Hne].
      * split; [intros _; split; [by left | done] | by left].
      * split.
        -- intros [?|[? Hns]]; [done|]. split; [by right|]. intros ?. apply Hns. by left.
        -- intros [[?|?] Hns]; [done|]. right. split; [done|]. by intros [?|?].
Qed.

Lemma NoDup_app_firstNew seen newFields :
  NoDup seen → NoDup (seen ++ firstNew seen newFields).
Proof.
  revert seen. induction newFields as [|f rest IH]; intros seen Hnd; cbn.
  - by rewrite app_nil_r.
  - destruct (decide (f ∈ seen)) as [Hin|Hnin]; [by apply IH|].
    rewrite cons_middle, (assoc_L (++) seen [f]). apply IH.
    apply NoDup_app. split; [done|]. split; [|apply NoDup_singleton].
    intros x Hx ->%list_elem_of_singleton. done.
Qed.

Lemma firstNew_sublist seen newFields : firstNew seen newFields `sublist_of` newFields.
Proof.
  revert seen. induction newFields as [|f rest IH]; intros seen; cbn; [done|].
  destruct (decide (f ∈ seen)).
  - by apply sublist_cons.
  - by apply sublist_skip.
Qed.

Lemma mergeFields_NoDup fs newFields : NoDup fs → NoDup (mergeFields fs newFields).
Proof. rewrite mergeFields_firstNew. apply NoDup_app_firstNew. Qed.

(** ** The invariant *)

Lemma NewRuleSet_inv m ctor o : RuleSet_inv (NewRuleSet m ctor o).
Proof.
  split; cbn.
  - constructor.
  - intros ?? ?%lookup_empty_Some. done.
  - intros ?? ?%lookup_empty_Some. done.
  - intros ??? ?%lookup_empty_Some. done.
Qed.

Lemma bucketFor_inv rs eventType :
  RuleSet_inv rs →
  NoDup (rb_fields (bucketFor rs eventType))
  ∧ ∀ rule, rule ∈ rb_rules (bucketFor rs eventType) →
            rules rs !! rd_ID (Rule_Definition rule) = Some rule.
Proof.
  intros Hinv. unfold bucketFor.
  destruct (eventRuleBuckets rs !! eventType) as [bucket|] eqn:Hb; cbn.
  - split; [by eapply inv_bucket_fields | intros rule; by eapply inv_bucket_rules].
  - split; [constructor | by intros rule ?%elem_of_nil].
Qed.

Lemma refusedRule_inv ruleDef eventType st :
  RuleSet_inv st.2 → RuleSet_inv (refusedRule ruleDef eventType st).2.
Proof.
  intros Hinv. destruct (bucketFor_inv st.2 eventType Hinv) as [Hbf Hbr].
  split; cbn.
  - apply Hinv.
  - intros et b. rewrite lookup_insert. case_decide as Heq.
    + by intros [= <-].
    + by apply inv_bucket_fields.
  - apply Hinv.
  - intros et b rule. rewrite lookup_insert. case_decide as Heq.
    + intros [= <-]. apply Hbr.
    + by apply inv_bucket_rules.
Qed.

Lemma storedRule_inv ruleDef eventType st :
  RuleSet_inv st.2 →
  rd_ID ruleDef ∉ ReservedRuleIDs (opts st.2) →
  rules st.2 !! rd_ID ruleDef = None →
  RuleSet_inv (storedRule ruleDef eventType st).2.
Proof.
  intros Hinv Hres Hnew. destruct (bucketFor_inv st.2 eventType Hinv) as [Hbf Hbr].
  split; cbn.
  - apply mergeFields_NoDup, Hinv.
  - intros et b. rewrite lookup_insert. case_decide as Heq.
    + intros [= <-]. cbn. by apply mergeFields_NoDup.
    + by apply inv_bucket_fields.
  - intros id rule. rewrite lookup_insert. case_decide as Heq.
    + intros [= <-]. by subst id.
    + by apply inv_rules.
  - assert (∀ rule, rules st.2 !! rd_ID (Rule_Definition rule) = Some rule →
                    <[rd_ID ruleDef := mkRule (length st.1) ruleDef]> (rules st.2)
                      !! rd_ID (Rule_Definition rule) = Some rule) as Hold.
    { intros rule Hr. rewrite lookup_insert_ne; [done|]. intros Heq. congruence. }
    intros et b rule. rewrite lookup_insert. case_decide as Heq.
    + intros [= <-]. cbn. rewrite elem_of_app, list_elem_of_singleton.
      intros [Hin| ->].
      * by apply Hold, Hbr.
      * cbn. by rewrite lookup_insert_eq.
    + intros Hb Hin. by eapply Hold, inv_bucket_rules.
Qed.

Lemma AddRule_inv ruleDef st :
  RuleSet_inv st.2 → RuleSet_inv (AddRule ruleDef st).1.2.
Proof.
  intros Hinv. destruct (AddRule_spec ruleDef st); try done.
  - by apply refusedRule_inv.
  - by apply storedRule_inv.
Qed.

Lemma AddMacro_state macroDef st :
  (AddMacro macroDef st).1 = st
  ∨ ∃ m, (AddMacro macroDef st).1 = (st.1, set_Macros m st.2).
Proof.
  destruct st as [h rs]. unfold AddMacro. rewrite bind_get_rs. cbn [fst snd].
  destruct (eo_Macros (Opts_Opts (opts rs)) !! md_ID macroDef); [by left|].
  destruct (Macro_Parse _) as [s1 [err|]]; [by left|].
  destruct (Macro_GenEvaluator _ _ _) as [s2 [err|]]; [by left|].
  right. by eexists.
Qed.

Lemma set_Macros_inv m rs : RuleSet_inv rs → RuleSet_inv (set_Macros m rs).
Proof. intros []. by split. Qed.

Lemma set_pool_inv p rs : RuleSet_inv rs → RuleSet_inv (set_pool p rs).
Proof. intros []. by split. Qed.

Lemma IsDiscarder_rs h event field rs :
  (IsDiscarder h event field rs).1 = rs
  ∨ ∃ p, (IsDiscarder h event field rs).1 = set_pool p rs.
Proof.
  unfold IsDiscarder.
  destruct (Event_GetFieldEventType event field) as [eventType [err|]]; [by left|].
  destruct (eventRuleBuckets rs !! eventType); [|by left].
  right. by eexists.
Qed.

(** Every reachable rule set satisfies the invariant. *)
Lemma reachable_inv st : reachable st → RuleSet_inv st.2.
Proof.
  induction 1 as [h m ctor o|st d _ IH|st d _ IH|st bs _ IH _|st l _ IH
                 |st f v _ IH|st fs _ IH|st ev _ IH|st ev f _ IH]; cbn [snd].
  - apply NewRuleSet_inv.
  - by apply AddRule_inv.
  - destruct (AddMacro_state d st) as [->|[m ->]]; [done|]. by apply set_Macros_inv.
  - done.
  - destruct IH. by split.
  - destruct IH. by split.
  - destruct IH as [H1 H2 H3 H4]. split; [|done..].
    by apply mergeFields_NoDup.
  - rewrite Evaluate_rs. by apply set_pool_inv.
  - destruct (IsDiscarder_rs st.1 ev f st.2) as [->|[p ->]]; [done|].
    by apply set_pool_inv.
Qed.

Lemma AddFields_fields newFields rs :
  fields (AddFields newFields rs) = fields rs ++ firstNew (fields rs) newFields.
Proof. cbn. apply mergeFields_firstNew. Qed.

Lemma elem_of_ListRuleIDs rs id : id ∈ ListRuleIDs rs ↔ is_Some (rules rs !! id).
Proof.
  unfold ListRuleIDs. rewrite list_elem_of_fmap. split.
  - intros ([id' r] & -> & Hin). apply elem_of_map_to_list in Hin. by exists r.
  - intros [r Hr]. exists (id, r). split; [done|]. by apply elem_of_map_to_list.
Qed.

(** C7. The global field list of a reachable rule set never holds a field
    twice, and [AddRule] keeps it so: the list after the call is the list
    before followed by the fields added.  When the call succeeds these are
    the fields of the new rule that were not in the list, each once, in the
    order of their first occurrence among the rule's fields; when it fails
    there are none.  [AddFields] itself does the same with any list of
    fields. *)
Theorem fields_no_duplicates st ruleDef :
  reachable st →
  let st' := (AddRule ruleDef st).1 in
  NoDup (fields st.2)
  ∧ NoDup (fields st'.2)
  ∧ (∃ added,
       fields st'.2 = fields st.2 ++ added
       ∧ (∀ p, (AddRule ruleDef st).2 = Ok p →
               let ruleFields := Evaluator_GetFields (st'.1 !!! p) in
               added = firstNew (fields st.2) ruleFields
               ∧ added `sublist_of` ruleFields
               ∧ ∀ f, f ∈ added ↔ f ∈ ruleFields ∧ f ∉ fields st.2)
       ∧ (∀ err, (AddRule ruleDef st).2 = Err err → added = []))
  ∧ (∀ newFields,
       fields (AddFields newFields st.2)
       = fields st.2 ++ firstNew (fields st.2) newFields
       ∧ NoDup (fields (AddFields newFields st.2))).
Proof.
  intros Hreach st'.
  pose proof (reachable_inv st Hreach) as Hinv.
  pose proof (reachable_inv _ (reachable_AddRule st ruleDef Hreach)) as Hinv'.
  split; [apply Hinv|]. split; [apply Hinv'|]. split.
  - subst st'. destruct (AddRule_spec ruleDef st) as [| | | | | | |eventType].
    1-7: exists []; rewrite app_nil_r; (split; [done|]); by split.
    exists (firstNew (fields st.2) (Evaluator_GetFields (compiledRule st.2 ruleDef))).
    split; [cbn; apply mergeFields_firstNew|]. split; [|done].
    intros p [= <-]. cbn [storedRule fst]. rewrite alloc_lookup.
    split; [done|]. split; [apply firstNew_sublist|].
    intros f. apply elem_of_firstNew.
  - intros newFields. split; [apply AddFields_fields|].
    cbn. apply mergeFields_NoDup, Hinv.
Qed.

Lemma AddRule_reserved_eq ruleDef st :
  rd_ID ruleDef ∈ ReservedRuleIDs (opts st.2) →
  AddRule ruleDef st = (st, Err (ErrRuleLoad ruleDef ErrInternalIDConflict)).
Proof.
  intros Hres. unfold AddRule. rewrite bind_get_rs.
  by rewrite bool_decide_eq_true_2.
Qed.

Lemma AddRule_duplicate_eq ruleDef st :
  rd_ID ruleDef ∉ ReservedRuleIDs (opts st.2) →
  is_Some (rules st.2 !! rd_ID ruleDef) →
  AddRule ruleDef st = (st, Err (ErrRuleLoad ruleDef ErrDefinitionIDConflict)).
Proof.
  intros Hres [r Hr]. unfold AddRule. rewrite bind_get_rs.
  rewrite bool_decide_eq_false_2 by done. by rewrite Hr.
Qed.

(** C4. On a reachable rule set, [AddRule] refuses a definition whose ID is
    reserved with [ErrInternalIDConflict] and one whose ID is in the rule
    table with [ErrDefinitionIDConflict], two different errors, and leaves
    the rule set and the heap as they were.  So after a definition was added,
    a second one with the same ID is refused, and the first rule is still
    what the rule table has under the ID, is listed by [ListRuleIDs], and is
    in the bucket of its event type, where no other rule has that ID. *)
Theorem AddRule_ID_conflicts st ruleDef :
  reachable st →
  (rd_ID ruleDef ∈ ReservedRuleIDs (opts st.2) →
   AddRule ruleDef st = (st, Err (ErrRuleLoad ruleDef ErrInternalIDConflict)))
  ∧ (is_Some (rules st.2 !! rd_ID ruleDef) →
     AddRule ruleDef st = (st, Err (ErrRuleLoad ruleDef ErrDefinitionIDConflict)))
  ∧ ErrRuleLoad ruleDef ErrInternalIDConflict
    ≠ ErrRuleLoad ruleDef ErrDefinitionIDConflict
  ∧ (∀ p second,
       (AddRule ruleDef st).2 = Ok p →
       rd_ID second = rd_ID ruleDef →
       let st1 := (AddRule ruleDef st).1 in
       let first := mkRule p ruleDef in
       AddRule second st1 = (st1, Err (ErrRuleLoad second ErrDefinitionIDConflict))
       ∧ rules st1.2 !! rd_ID ruleDef = Some first
       ∧ rd_ID ruleDef ∈ ListRuleIDs st1.2
       ∧ (∃ eventType bucket,
            GetRuleEventType (st1.1 !!! p) = Ok eventType
            ∧ eventRuleBuckets st1.2 !! eventType = Some bucket
            ∧ first ∈ rb_rules bucket)
       ∧ (∀ eventType bucket rule,
            eventRuleBuckets st1.2 !! eventType = Some bucket →
            rule ∈ rb_rules bucket →
            rd_ID (Rule_Definition rule) = rd_ID ruleDef →
            rule = first)).
Proof.
  intros Hreach.
  assert (∀ st d, reachable st → is_Some (rules st.2 !! rd_ID d) →
                  AddRule d st = (st, Err (ErrRuleLoad d ErrDefinitionIDConflict)))
    as Hdup.
  { clear. intros st d Hreach [r Hr].
    pose proof (reachable_inv st Hreach) as Hinv.
    destruct (inv_rules _ Hinv _ _ Hr) as [Hres _].
    apply AddRule_duplicate_eq; [done | by eexists]. }
  split; [|split; [|split]].
  - apply AddRule_reserved_eq.
  - by apply Hdup.
  - by intros [=].
  - intros p second Hok Hid st1 first.
    pose proof (reachable_AddRule st ruleDef Hreach) as Hreach1. fold st1 in Hreach1.
    pose proof (reachable_inv st1 Hreach1) as Hinv1.
    assert (rules st1.2 !! rd_ID ruleDef = Some first
            ∧ ∃ eventType bucket,
                GetRuleEventType (st1.1 !!! p) = Ok eventType
                ∧ eventRuleBuckets st1.2 !! eventType = Some bucket
                ∧ first ∈ rb_rules bucket) as [Hfirst Hbucket].
    { subst st1 first.
      destruct (AddRule_spec ruleDef st) as [| | | | | | |eventType ? ? ? ? Het];
        try done.
      injection Hok as <-. cbn [storedRule fst snd]. rewrite alloc_lookup.
      split; [apply lookup_insert_eq|].
      eexists eventType, _. split; [done|]. split; [apply lookup_insert_eq|].
      cbn. rewrite elem_of_app, list_elem_of_singleton. by right. }
    split; [|split; [done|split; [|split; [done|]]]].
    + apply Hdup; [done|]. rewrite Hid. by eexists.
    + apply elem_of_ListRuleIDs. by eexists.
    + intros eventType bucket rule Hb Hin Hrid.
      pose proof (inv_bucket_rules _ Hinv1 _ _ _ Hb Hin) as Hr.
      rewrite Hrid, Hfirst in Hr. by injection Hr.
Qed.

Lemma AddRule_eventType_eq ruleDef st err :
  rd_ID ruleDef ∉ ReservedRuleIDs (opts st.2) →
  rules st.2 !! rd_ID ruleDef = None →
  parseError ruleDef = None →
  compileError st.2 ruleDef = None →
  GetRuleEventType (compiledRule st.2 ruleDef) = Err err →
  AddRule ruleDef st = (st, Err (ErrRuleLoad ruleDef err)).
Proof.
  intros Hres Hnew Hp Hc Het.
  pose proof (AddRule_spec ruleDef st) as Hcase.
  destruct (AddRule ruleDef st) as [st' res]. cbn [fst snd] in Hcase.
  destruct Hcase as [?|? [? ?]| | |err' ? ? ? ? Het'| | |]; try congruence.
  rewrite Het in Het'. by injection Het' as ->.
Qed.

Lemma AddRule_disabled_eq ruleDef st eventType :
  rd_ID ruleDef ∉ ReservedRuleIDs (opts st.2) →
  rules st.2 !! rd_ID ruleDef = None →
  parseError ruleDef = None →
  compileError st.2 ruleDef = None →
  GetRuleEventType (compiledRule st.2 ruleDef) = Ok eventType →
  EventTypeEnabled (opts st.2) !! "*" = None →
  EventTypeEnabled (opts st.2) !! eventType = None →
  AddRule ruleDef st = (st, Err (ErrRuleLoad ruleDef ErrEventTypeNotEnabled)).
Proof.
  intros Hres Hnew Hp Hc Het H1 H2.
  pose proof (AddRule_spec ruleDef st) as Hcase.
  destruct (AddRule ruleDef st) as [st' res]. cbn [fst snd] in Hcase.
  destruct Hcase as [?|? [? ?]| | | | |et' ? ? ? ? ? Het' ? Hen|et' ? ? ? ? Het' ? Hen];
    try congruence; try done.
  - assert (et' = eventType) as -> by congruence.
    destruct Hen as [[? ?]|[? ?]]; congruence.
  - assert (et' = eventType) as -> by congruence.
    destruct Hen as [[? ?]|[? ?]]; congruence.
Qed.

Lemma GetRuleEventType_eventTypes rule :
  (Rule_GetEventTypes rule).2 = None →
  GetRuleEventType rule
  = match (Rule_GetEventTypes rule).1 with
    | [] => Err ErrRuleWithoutEvent
    | [eventType] => Ok eventType
    | _ :: _ :: _ => Err ErrRuleWithMultipleEvents
    end.
Proof.
  unfold GetRuleEventType.
  destruct (Rule_GetEventTypes rule) as [eventTypes err]. cbn. by intros ->.
Qed.

(** C5. For a definition that gets as far as the event type check (its ID
    is free, it parses and compiles, and its event types are got without
    error) on a reachable rule set, [AddRule] fails with
    [ErrRuleWithoutEvent] when the rule has no event type, with
    [ErrRuleWithMultipleEvents] when it has more than one, and with
    [ErrEventTypeNotEnabled] when it has one and [EventTypeEnabled] has
    neither the key ["*"] nor the event type.  Each time the rule set and the
    heap are left as they were, the ID is not listed by [ListRuleIDs], and no
    bucket holds a rule of that ID. *)
Theorem AddRule_event_type_errors st ruleDef :
  reachable st →
  rd_ID ruleDef ∉ ReservedRuleIDs (opts st.2) →
  rules st.2 !! rd_ID ruleDef = None →
  parseError ruleDef = None →
  compileError st.2 ruleDef = None →
  (Rule_GetEventTypes (compiledRule st.2 ruleDef)).2 = None →
  let eventTypes := (Rule_GetEventTypes (compiledRule st.2 ruleDef)).1 in
  let rejected err :=
    AddRule ruleDef st = (st, Err (ErrRuleLoad ruleDef err))
    ∧ (rd_ID ruleDef ∉ ListRuleIDs (AddRule ruleDef st).1.2)
    ∧ ∀ eventType bucket rule,
        eventRuleBuckets (AddRule ruleDef st).1.2 !! eventType = Some bucket →
        rule ∈ rb_rules bucket →
        rd_ID (Rule_Definition rule) ≠ rd_ID ruleDef in
  eventTypes = Evaluator_EventTypes (compiledRule st.2 ruleDef)
  ∧ (eventTypes = [] → rejected ErrRuleWithoutEvent)
  ∧ (1 < length eventTypes → rejected ErrRuleWithMultipleEvents)
  ∧ (∀ eventType,
       eventTypes = [eventType] →
       EventTypeEnabled (opts st.2) !! "*" = None →
       EventTypeEnabled (opts st.2) !! eventType = None →
       rejected ErrEventTypeNotEnabled).
Proof.
  intros Hreach Hres Hnew Hp Hc Herr eventTypes rejected.
  pose proof (reachable_inv st Hreach) as Hinv.
  pose proof (GetRuleEventType_eventTypes _ Herr) as Het. fold eventTypes in Het.
  assert (∀ err, AddRule ruleDef st = (st, Err (ErrRuleLoad ruleDef err)) →
                 rejected err) as Hrej.
  { intros err Heq. unfold rejected. rewrite Heq. cbn [fst snd].
    split; [done|]. split.
    - rewrite elem_of_ListRuleIDs, Hnew. by intros [? ?].
    - intros eventType bucket rule Hb Hin Hid.
      pose proof (inv_bucket_rules _ Hinv _ _ _ Hb Hin) as Hr. congruence. }
  split; [|split; [|split]].
  - subst eventTypes. unfold Rule_GetEventTypes in *.
    by destruct (Rule_GetEventTypes_err (compiledRule st.2 ruleDef)).
  - intros Hnil. rewrite Hnil in Het. by apply Hrej, AddRule_eventType_eq.
  - intros Hlen. apply Hrej, AddRule_eventType_eq; try done.
    rewrite Het. destruct eventTypes as [|et [|et' ets]]; cbn in Hlen; [lia..|done].
  - intros eventType Hone H1 H2. rewrite Hone in Het.
    apply Hrej. by apply AddRule_disabled_eq with eventType.
Qed.

(** ** Bulk operations *)

(** Projections out of the states [AddRule] leaves. *)
Ltac simpl_rs :=
  cbn [refusedRule storedRule fst snd opts loadedPolicies eventRuleBuckets rules
       macros model eventCtor listeners fields pool set_opts set_loadedPolicies
       set_eventRuleBuckets set_rules set_listeners set_fields set_pool AddFields
       rb_rules rb_fields Rule_Rule Rule_Definition].

Lemma bulk_foldl {A D : Type} (add : D → M A) (defs : list D) (st : St) (errs : list Error) :
  foldl (bulk_step add) (st, errs) defs
  = (bulk_final add st defs, errs ++ errorsOf (bulk_outcomes add st defs)).
Proof.
  revert st errs. induction defs as [|d rest IH]; intros st errs; cbn.
  - by rewrite app_nil_r.
  - unfold bulk_step at 2. cbn [fst snd].
    destruct (add d st) as [st' [a|err]]; cbn [fst snd]; rewrite IH.
    + done.
    + unfold multierror_Append. cbn. by rewrite <- app_assoc.
Qed.

Lemma bulk_outcomes_length {A D : Type} (add : D → M A) (defs : list D) (st : St) :
  length (bulk_outcomes add st defs) = length defs.
Proof. revert st. induction defs as [|d rest IH]; intros st; cbn; [done|]. by rewrite IH. Qed.


Lemma AddMacro_Ok macroDef st macro :
  (AddMacro macroDef st).2 = Ok macro →
  eo_Macros (Opts_Opts (opts (AddMacro macroDef st).1.2)) !! md_ID macroDef = Some macro.
Proof.
  destruct st as [h rs]. unfold AddMacro. rewrite bind_get_rs. cbn [fst snd].
  destruct (eo_Macros (Opts_Opts (opts rs)) !! md_ID macroDef); [done|].
  destruct (Macro_Parse _) as [s1 [err|]]; [done|].
  destruct (Macro_GenEvaluator _ _ _) as [s2 [err|]]; [done|].
  cbn. intros [= <-]. apply lookup_insert_eq.
Qed.

Lemma AddMacro_keeps macroDef st id macro :
  eo_Macros (Opts_Opts (opts st.2)) !! id = Some macro →
  eo_Macros (Opts_Opts (opts (AddMacro macroDef st).1.2)) !! id = Some macro.
Proof.
  destruct st as [h rs]. unfold AddMacro. rewrite bind_get_rs. cbn [fst snd].
  intros Hid.
  destruct (eo_Macros (Opts_Opts (opts rs)) !! md_ID macroDef) eqn:Hm; [done|].
  destruct (Macro_Parse _) as [s1 [err|]]; [done|].
  destruct (Macro_GenEvaluator _ _ _) as [s2 [err|]]; [done|].
  unfold mbind, M_bind, mret, M_ret, modify_rs, set_Macros, set_opts.
  cbn [fst snd opts Opts_Opts eo_Macros em_ID].
  rewrite lookup_insert_ne; [done|]. congruence.
Qed.













Lemma reachable_bulk_AddRule defs st :
  reachable st → reachable (bulk_final AddRule st defs).
Proof.
  revert st. induction defs as [|d rest IH]; intros st Hr; cbn; [done|].
  by apply IH, reachable_AddRule.
Qed.

Lemma reachable_AddRules defs st : reachable st → reachable (AddRules defs st).1.
Proof.
  intros Hr. unfold AddRules. rewrite bulk_foldl.
  pose proof (reachable_generatePartials _ _ (reachable_bulk_AddRule defs st Hr)
                (reflexivity _)) as Hg.
  unfold generatePartials.
  destruct (generatePartials_buckets _ _) as [h' [err|]]; apply Hg.
Qed.



(** * More on loading *)

(** X1. [AddMacro] fails on an ID that is already in the macro table with
    the "multiple definition" load error, and whenever it fails it leaves
    heap and rule set as they were.  When it succeeds the ID was free, the
    macro returned has the ID and the expression of the definition, and the
    only change is that macro under that ID in the macro table. *)
Theorem AddMacro_outcome macroDef st :
  match (AddMacro macroDef st).2 with
  | Err err =>
    (AddMacro macroDef st).1 = st
    ∧ ∃ cause, err = ErrMacroLoad macroDef cause
               ∧ (is_Some (eo_Macros (Opts_Opts (opts st.2)) !! md_ID macroDef) →
                  cause = errors_New "multiple definition with the same ID")
  | Ok macro =>
    eo_Macros (Opts_Opts (opts st.2)) !! md_ID macroDef = None
    ∧ em_ID macro = md_ID macroDef
    ∧ em_Expression macro = md_Expression macroDef
    ∧ (AddMacro macroDef st).1
      = (st.1, set_Macros (<[md_ID macroDef := macro]> (eo_Macros (Opts_Opts (opts st.2))))
                 st.2)
  end.
Proof.
  destruct st as [h rs]. unfold AddMacro. rewrite bind_get_rs. cbn [fst snd].
  destruct (eo_Macros (Opts_Opts (opts rs)) !! md_ID macroDef) as [m|] eqn:Hm.
  { cbn. split; [done|]. eexists. split; [done|]. done. }
  destruct (Macro_Parse _) as [s1 [err|]].
  { cbn. split; [done|]. eexists. split; [done|]. by intros [? ?]. }
  destruct (Macro_GenEvaluator _ _ _) as [s2 [err|]].
  { cbn. split; [done|]. eexists. split; [done|]. by intros [? ?]. }
  done.
Qed.

Lemma AddRule_rules ruleDef st id :
  is_Some (rules (AddRule ruleDef st).1.2 !! id)
  ↔ is_Some (rules st.2 !! id)
    ∨ (∃ p, (AddRule ruleDef st).2 = Ok p) ∧ rd_ID ruleDef = id.
Proof.
  destruct (AddRule_spec ruleDef st) as [| | | | | | |et Hres Hnew];
    try (split; [by left | by intros [?|[[? ?] _]]]).
  simpl_rs. rewrite lookup_insert. case_decide as Heq.
  - split; [intros _; right; split; [by eexists | done] | by eexists].
  - split; [by left | by intros [?|[_ ?]]].
Qed.

Lemma AddMacro_Macros macroDef st id :
  is_Some (eo_Macros (Opts_Opts (opts (AddMacro macroDef st).1.2)) !! id)
  ↔ is_Some (eo_Macros (Opts_Opts (opts st.2)) !! id)
    ∨ (∃ m, (AddMacro macroDef st).2 = Ok m) ∧ md_ID macroDef = id.
Proof.
  pose proof (AddMacro_Ok macroDef st) as Hok.
  pose proof (AddMacro_keeps macroDef st id) as Hkeep.
  destruct st as [h rs]. revert Hok Hkeep.
  unfold AddMacro. rewrite bind_get_rs. cbn [fst snd].
  destruct (eo_Macros (Opts_Opts (opts rs)) !! md_ID macroDef) as [m|] eqn:Hm.
  { intros _ _. split; [by left | by intros [?|[[? ?] _]]]. }
  destruct (Macro_Parse _) as [s1 [err|]].
  { intros _ _. split; [by left | by intros [?|[[? ?] _]]]. }
  destruct (Macro_GenEvaluator _ _ _) as [s2 [err|]].
  { intros _ _. split; [by left | by intros [?|[[? ?] _]]]. }
  unfold mbind, M_bind, mret, M_ret, modify_rs, set_Macros, set_opts.
  cbn [fst snd opts Opts_Opts eo_Macros em_ID]. intros _ _.
  rewrite lookup_insert. case_decide as Heq.
  - split; [intros _; right; split; [by eexists | done] | by eexists].
  - split; [by left | by intros [?|[_ ?]]].
Qed.

(** What a bulk operation has registered at its end: what was there, and the
    IDs of the definitions whose call succeeded. *)
Lemma bulk_registered {A D : Type} (add : D → M A) (has : St → string → Prop)
    (idOf : D → string) :
  (∀ d st id,
     has (add d st).1 id ↔ has st id ∨ (∃ a, (add d st).2 = Ok a) ∧ idOf d = id) →
  ∀ defs st id,
    has (bulk_final add st defs) id
    ↔ has st id
      ∨ ∃ i d a, defs !! i = Some d
                 ∧ bulk_outcomes add st defs !! i = Some (Ok a)
                 ∧ idOf d = id.
Proof.
  intros Hstep. induction defs as [|d rest IH]; intros st id; cbn.
  - split; [by left | by intros [?|(i & ? & ? & ? & _)]].
  - rewrite IH, Hstep. split.
    + intros [[?|[[a Ha] Hid]]|(i & d' & a & Hd & Ho & Hid)].
      * by left.
      * right. exists 0, d, a. by rewrite <- Ha.
      * right. by exists (S i), d', a.
    + intros [?|(i & d' & a & Hd & Ho & Hid)]; [by left; left|].
      destruct i as [|i]; cbn in Hd, Ho.
      * injection Hd as <-. injection Ho as Ho. left. right. split; [by eexists|done].
      * right. by exists i, d', a.
Qed.

(** X2. After [AddRules], [ListRuleIDs] lists an ID exactly when it did
    before or it is the ID of a definition of the list whose [AddRule]
    succeeded, and it lists no ID twice. *)
Theorem ListRuleIDs_AddRules defs st :
  NoDup (ListRuleIDs (AddRules defs st).1.2)
  ∧ ∀ id,
      id ∈ ListRuleIDs (AddRules defs st).1.2
      ↔ id ∈ ListRuleIDs st.2
        ∨ ∃ i ruleDef p,
            defs !! i = Some ruleDef
            ∧ bulk_outcomes AddRule st defs !! i = Some (Ok p)
            ∧ rd_ID ruleDef = id.
Proof.
  split; [apply NoDup_fst_map_to_list|].
  intros id. rewrite !elem_of_ListRuleIDs.
  assert ((AddRules defs st).1.2 = (bulk_final AddRule st defs).2) as ->.
  { unfold AddRules. rewrite bulk_foldl. unfold generatePartials.
    destruct (generatePartials_buckets _ _) as [h' [err|]]; done. }
  apply (bulk_registered AddRule (λ st id, is_Some (rules st.2 !! id)) rd_ID).
  intros d st0 id0. apply AddRule_rules.
Qed.

(** X3. After [AddMacros], [ListMacroIDs] lists an ID exactly when it did
    before or it is the ID of a definition of the list whose [AddMacro]
    succeeded, and it lists no ID twice. *)
Theorem ListMacroIDs_AddMacros macros st :
  NoDup (ListMacroIDs (AddMacros macros st).1.2)
  ∧ ∀ id,
      id ∈ ListMacroIDs (AddMacros macros st).1.2
      ↔ id ∈ ListMacroIDs st.2
        ∨ ∃ i macroDef macro,
            macros !! i = Some macroDef
            ∧ bulk_outcomes AddMacro st macros !! i = Some (Ok macro)
            ∧ md_ID macroDef = id.
Proof.
  split; [apply NoDup_fst_map_to_list|].
  assert (∀ rs id, id ∈ ListMacroIDs rs
                   ↔ is_Some (eo_Macros (Opts_Opts (opts rs)) !! id)) as Hl.
  { intros rs id. unfold ListMacroIDs. rewrite list_elem_of_fmap. split.
    - intros ([id' m] & -> & Hin). apply elem_of_map_to_list in Hin. by exists m.
    - intros [m Hm]. exists (id, m). split; [done|]. by apply elem_of_map_to_list. }
  intros id. rewrite !Hl.
  assert ((AddMacros macros st).1 = bulk_final AddMacro st macros) as ->.
  { unfold AddMacros. by rewrite bulk_foldl. }
  apply (bulk_registered AddMacro
           (λ st id, is_Some (eo_Macros (Opts_Opts (opts st.2)) !! id)) md_ID).
  intros d st0 id0. apply AddMacro_Macros.
Qed.

Lemma dotsToUnderscores_dotFree s : dotFree (dotsToUnderscores s) = true.
Proof.
  induction s as [|c s IH]; [done|]. cbn. rewrite IH, andb_true_r.
  by destruct (Ascii.eqb_spec c "."%char) as [->|Hne]; [|apply negb_true_iff, Ascii.eqb_neq].
Qed.

(** The other states [AddRule] can leave keep these parts of the rule set. *)
Lemma AddRule_frame ruleDef st :
  opts (AddRule ruleDef st).1.2 = opts st.2
  ∧ loadedPolicies (AddRule ruleDef st).1.2 = loadedPolicies st.2
  ∧ macros (AddRule ruleDef st).1.2 = macros st.2
  ∧ listeners (AddRule ruleDef st).1.2 = listeners st.2
  ∧ pool (AddRule ruleDef st).1.2 = pool st.2.
Proof. by destruct (AddRule_spec ruleDef st). Qed.

(** More of what holds of every reachable rule set: a bucket without rules
    has no fields, and no key of the loaded policies has a dot. *)
Lemma reachable_buckets_policies st :
  reachable st →
  (∀ eventType bucket,
     eventRuleBuckets st.2 !! eventType = Some bucket →
     rb_rules bucket = [] → rb_fields bucket = [])
  ∧ (∀ key version, loadedPolicies st.2 !! key = Some version → dotFree key = true).
Proof.
  induction 1 as [h m ctor o|st d _ IH|st d _ IH|st bs _ IH _|st l _ IH
                 |st f v _ IH|st fs _ IH|st ev _ IH|st ev f _ IH]; cbn [snd].
  - split; cbn; intros ?? ?%lookup_empty_Some; done.
  - destruct IH as [IHb IHp]. split.
    + destruct (AddRule_spec d st) as [| | | | | |et err|et]; try done; simpl_rs.
      * intros et' b. rewrite lookup_insert. case_decide as Heq; [|by apply IHb].
        intros [= <-]. unfold bucketFor.
        destruct (eventRuleBuckets st.2 !! et) as [b|] eqn:Hb; cbn; [by eapply IHb|done].
      * intros et' b. rewrite lookup_insert. case_decide as Heq; [|by apply IHb].
        intros [= <-]. cbn. intros Hnil. by apply app_eq_nil in Hnil as [_ ?].
    + destruct (AddRule_frame d st) as (_ & -> & _). apply IHp.
  - destruct (AddMacro_state d st) as [->|[m ->]]; [done|]. apply IH.
  - done.
  - apply IH.
  - destruct IH as [IHb IHp]. split; [done|].
    intros key version. unfold AddPolicyVersion, set_loadedPolicies. cbn [loadedPolicies].
    rewrite ReplaceAll_dot, lookup_insert. case_decide as Heq; [|by apply IHp].
    intros _. subst key. apply dotsToUnderscores_dotFree.
  - apply IH.
  - rewrite Evaluate_rs. apply IH.
  - destruct (IsDiscarder_rs st.1 ev f st.2) as [->|[p ->]]; apply IH.
Qed.

(** X4. On a reachable rule set, an event whose type
    [HasRulesForEventType] says has no rule evaluates to false, and no
    listener is called: not for a match, and not for a discarder either. *)
Theorem HasRulesForEventType_false_Evaluate st event :
  reachable st →
  HasRulesForEventType st.2 (Event_GetType event) = false →
  (Evaluate st.1 event st.2).2 = ([], false).
Proof.
  intros Hreach. unfold HasRulesForEventType.
  destruct (eventRuleBuckets st.2 !! Event_GetType event) as [bucket|] eqn:Hb.
  - intros Hlen%bool_decide_eq_false.
    assert (rb_rules bucket = []) as Hnil.
    { destruct (rb_rules bucket); [done|]. cbn in Hlen. lia. }
    pose proof (proj1 (reachable_buckets_policies st Hreach) _ _ Hb Hnil) as Hf.
    rewrite (Evaluate_bucket st.1 event st.2 bucket Hb).
    unfold discarderFields. by rewrite Hnil, Hf.
  - intros _. by apply Evaluate_no_bucket.
Qed.

(** X5. On a reachable rule set, no reserved ID is listed by [ListRuleIDs],
    the rule table has every rule under the ID of its definition, and every
    rule of a bucket is in the rule table, so that its ID is listed. *)
Theorem reachable_rule_table st :
  reachable st →
  (∀ id, id ∈ ReservedRuleIDs (opts st.2) → id ∉ ListRuleIDs st.2)
  ∧ (∀ id rule, GetRules st.2 !! id = Some rule → rd_ID (Rule_Definition rule) = id)
  ∧ (∀ eventType bucket rule,
       GetBucket st.2 eventType = Some bucket →
       rule ∈ rb_rules bucket →
       GetRules st.2 !! rd_ID (Rule_Definition rule) = Some rule
       ∧ rd_ID (Rule_Definition rule) ∈ ListRuleIDs st.2).
Proof.
  intros Hreach. pose proof (reachable_inv st Hreach) as Hinv.
  split; [|split].
  - intros id Hres [rule Hrule]%elem_of_ListRuleIDs.
    by destruct (inv_rules _ Hinv _ _ Hrule).
  - intros id rule Hrule. by destruct (inv_rules _ Hinv _ _ Hrule).
  - intros eventType bucket rule Hb Hin.
    pose proof (inv_bucket_rules _ Hinv _ _ _ Hb Hin) as Hr.
    split; [done|]. apply elem_of_ListRuleIDs. by eexists.
Qed.

(** X6. On a reachable rule set, no key of the loaded policies has a dot,
    and looking a policy up under its file name with the dots turned to
    underscores gives the version of the last [AddPolicyVersion] for it. *)
Theorem loadedPolicies_keys st :
  reachable st →
  (∀ key version, loadedPolicies st.2 !! key = Some version → dotFree key = true)
  ∧ (∀ filename version,
       loadedPolicies (AddPolicyVersion filename version st.2)
         !! dotsToUnderscores filename = Some version)
  ∧ (∀ filename version key,
       key ≠ dotsToUnderscores filename →
       loadedPolicies (AddPolicyVersion filename version st.2) !! key
       = loadedPolicies st.2 !! key).
Proof.
  intros Hreach. split; [apply (reachable_buckets_policies st Hreach)|].
  split.
  - intros filename version.
    unfold AddPolicyVersion, set_loadedPolicies. cbn [loadedPolicies].
    rewrite ReplaceAll_dot. apply lookup_insert_eq.
  - intros filename version key Hne.
    unfold AddPolicyVersion, set_loadedPolicies. cbn [loadedPolicies].
    rewrite ReplaceAll_dot. by apply lookup_insert_ne.
Qed.

Lemma elem_of_mergeFields fs newFields f :
  f ∈ mergeFields fs newFields ↔ f ∈ fs ∨ f ∈ newFields.
Proof.
  rewrite mergeFields_firstNew, elem_of_app, elem_of_firstNew. split.
  - intros [?|[? _]]; [by left | by right].
  - intros [?|?]; [by left|].
    destruct (decide (f ∈ fs)); [by left | right; by split].
Qed.

(** X7. When [AddRule] succeeds, the ID of the definition is not reserved
    and was free, the pointer returned is the first unused address of the
    heap, the rule has one event type, which is enabled, and afterwards the
    bucket of that event type ends with the new rule, [HasRulesForEventType]
    holds of it, [GetEventTypes] lists it, and every field of the rule is in
    the bucket's field list and in the global one. *)
Theorem AddRule_registers ruleDef st p :
  (AddRule ruleDef st).2 = Ok p →
  let st' := (AddRule ruleDef st).1 in
  let rule := st'.1 !!! p in
  p = length st.1
  ∧ length st'.1 = S (length st.1)
  ∧ (rd_ID ruleDef ∉ ReservedRuleIDs (opts st.2))
  ∧ rules st.2 !! rd_ID ruleDef = None
  ∧ er_ID rule = rd_ID ruleDef
  ∧ er_Expression rule = rd_Expression ruleDef
  ∧ ∃ eventType bucket,
      Evaluator_EventTypes rule = [eventType]
      ∧ (is_Some (EventTypeEnabled (opts st.2) !! "*")
         ∨ is_Some (EventTypeEnabled (opts st.2) !! eventType))
      ∧ GetBucket st'.2 eventType = Some bucket
      ∧ last (rb_rules bucket) = Some (mkRule p ruleDef)
      ∧ HasRulesForEventType st'.2 eventType = true
      ∧ eventType ∈ GetEventTypes st'.2
      ∧ ∀ f, f ∈ Evaluator_GetFields rule → f ∈ rb_fields bucket ∧ f ∈ fields st'.2.
Proof.
  intros Hok st' rule. subst st' rule.
  destruct (AddRule_spec ruleDef st) as [| | | | | | |et Hres Hnew Hp Hc Het Hets Hen Hb];
    try done.
  injection Hok as <-. cbn [storedRule fst snd]. rewrite alloc_lookup.
  split; [done|]. split; [rewrite length_app; cbn; lia|].
  split; [done|]. split; [done|]. split; [done|]. split; [done|].
  eexists et, _. split; [done|]. split; [done|].
  unfold GetBucket, HasRulesForEventType. simpl_rs.
  split; [apply lookup_insert_eq|]. simpl_rs. split; [apply last_snoc|].
  rewrite elem_of_GetEventTypes. simpl_rs. rewrite lookup_insert_eq. cbn [rb_rules].
  split; [apply bool_decide_eq_true; rewrite length_app; cbn; lia|].
  split; [by eexists|].
  intros f Hf. rewrite !elem_of_mergeFields. by split; right.
Qed.

(** X8. Whatever its outcome, [AddRule] removes nothing from the rule
    table or from the event types: every entry of the rule table stays as it
    is, [ListRuleIDs] lists what it listed and at most the ID of the
    definition besides, and only when the call succeeded, and every event
    type [GetEventTypes] listed is still listed.  A call that fails leaves
    the rule table and the global field list as they were. *)
Theorem AddRule_removes_nothing ruleDef st :
  let st' := (AddRule ruleDef st).1 in
  rules st.2 ⊆ rules st'.2
  ∧ (∀ id, id ∈ ListRuleIDs st'.2
           ↔ id ∈ ListRuleIDs st.2
             ∨ (∃ p, (AddRule ruleDef st).2 = Ok p) ∧ rd_ID ruleDef = id)
  ∧ (∀ eventType, eventType ∈ GetEventTypes st.2 → eventType ∈ GetEventTypes st'.2)
  ∧ (∀ err, (AddRule ruleDef st).2 = Err err →
            rules st'.2 = rules st.2 ∧ fields st'.2 = fields st.2).
Proof.
  intros st'. subst st'.
  split; [|split; [|split]].
  - destruct (AddRule_spec ruleDef st) as [| | | | | | |et Hres Hnew]; try done.
    simpl_rs. by apply insert_subseteq.
  - intros id. rewrite !elem_of_ListRuleIDs. apply AddRule_rules.
  - intros eventType. rewrite !elem_of_GetEventTypes. intros [bucket Hb].
    destruct (AddRule_spec ruleDef st) as [| | | | | |et err|et]; try by exists bucket.
    + simpl_rs. rewrite lookup_insert. case_decide; by eexists.
    + simpl_rs. rewrite lookup_insert. case_decide; by eexists.
  - intros err Herr.
    by destruct (AddRule_spec ruleDef st) as [| | | | | |et err'|et].
Qed.

Lemma errorsOf_nil {A : Type} (outcomes : list (result A)) :
  errorsOf outcomes = [] ↔ Forall isOk outcomes.
Proof.
  induction outcomes as [|[a|e] rest IH]; cbn.
  - split; [constructor | done].
  - unfold errorsOf in *. cbn. rewrite IH. split.
    + by constructor.
    + by inversion 1.
  - split; [done|]. by inversion 1.
Qed.

Lemma errorsOf_length {A : Type} (outcomes : list (result A)) :
  length (errorsOf outcomes) ≤ length outcomes.
Proof.
  induction outcomes as [|[a|e] rest IH]; unfold errorsOf in *; cbn; lia.
Qed.

(** X9. The combined error of [AddMacros] is nil exactly when every
    [AddMacro] succeeded, and that of [AddRules] exactly when every [AddRule]
    succeeded and [generatePartials] did too; they hold at most one error
    per definition, and one more for [AddRules]. *)
Theorem bulk_errors_nil st :
  (∀ macros,
     ((AddMacros macros st).2 = [] ↔ Forall isOk (bulk_outcomes AddMacro st macros))
     ∧ length (AddMacros macros st).2 ≤ length macros)
  ∧ (∀ defs,
       ((AddRules defs st).2 = []
        ↔ Forall isOk (bulk_outcomes AddRule st defs)
          ∧ (generatePartials (bulk_final AddRule st defs)).2 = None)
       ∧ length (AddRules defs st).2 ≤ S (length defs)).
Proof.
  split.
  - intros macros. unfold AddMacros. rewrite bulk_foldl. cbn [snd app].
    split; [apply errorsOf_nil|].
    rewrite <- (bulk_outcomes_length AddMacro macros st). apply errorsOf_length.
  - intros defs. unfold AddRules. rewrite bulk_foldl. cbn [app].
    pose proof (errorsOf_length (bulk_outcomes AddRule st defs)) as Hlen.
    rewrite bulk_outcomes_length in Hlen.
    destruct (generatePartials (bulk_final AddRule st defs)) as [st2 [err|]];
      cbn [fst snd].
    + unfold multierror_Append. split.
      * split; [by intros ?%app_eq_nil%proj2 | by intros [_ ?]].
      * rewrite length_app. cbn. lia.
    + split; [|lia]. rewrite errorsOf_nil. split; [done | by intros [? _]].
Qed.

(** X10. [AddFields] with no field changes nothing, two calls in a row are
    one call with the two lists one after the other, a second call with the
    same fields changes nothing, and afterwards every field given is in the
    list. *)
Theorem AddFields_composes rs :
  AddFields [] rs = rs
  ∧ (∀ fs1 fs2, AddFields fs2 (AddFields fs1 rs) = AddFields (fs1 ++ fs2) rs)
  ∧ (∀ fs, AddFields fs (AddFields fs rs) = AddFields fs rs)
  ∧ (∀ fs f, f ∈ fields (AddFields fs rs) ↔ f ∈ fields rs ∨ f ∈ fs).
Proof.
  assert (∀ fs l, (∀ f, f ∈ fs → f ∈ l) → mergeFields l fs = l) as Hid.
  { induction fs as [|f fs IH]; intros l Hin; [done|].
    unfold mergeFields. cbn. rewrite addField_spec.
    rewrite decide_True by (apply Hin; by left).
    apply IH. intros f' Hf'. apply Hin. by right. }
  split; [by destruct rs|]. split; [|split].
  - intros fs1 fs2. unfold AddFields, set_fields, mergeFields. cbn.
    by rewrite foldl_app.
  - intros fs. unfold AddFields, set_fields. cbn. f_equal.
    apply Hid. intros f Hf. apply elem_of_mergeFields. by right.
  - intros fs f. cbn. apply elem_of_mergeFields.
Qed.

(** X11. [GetTags] gives one ["key:value"] per entry of the tags of the
    definition, and nothing else; the rule object a successful [AddRule]
    makes carries the same tags. *)
Theorem GetTags_entries rd :
  length (GetTags rd) = size (rd_Tags rd)
  ∧ (∀ tag, tag ∈ GetTags rd
            ↔ ∃ k v, rd_Tags rd !! k = Some v ∧ tag = k +:+ ":" +:+ v)
  ∧ (∀ st p tag,
       (AddRule rd st).2 = Ok p →
       tag ∈ er_Tags ((AddRule rd st).1.1 !!! p) ↔ tag ∈ GetTags rd).
Proof.
  split; [|split].
  - unfold GetTags. by rewrite length_fmap, length_map_to_list.
  - intros tag. unfold GetTags. rewrite list_elem_of_fmap. split.
    + intros ([k v] & -> & Hin). apply elem_of_map_to_list in Hin. by exists k, v.
    + intros (k & v & Hkv & ->). exists (k, v). split; [done|].
      by apply elem_of_map_to_list.
  - intros st p tag Hok.
    destruct (AddRule_spec rd st) as [| | | | | | |et]; try done.
    injection Hok as <-. cbn [storedRule fst]. by rewrite alloc_lookup.
Qed.

(** * More on evaluation *)

Lemma Evaluate_rulesNotifiedTo h event rs bucket l :
  eventRuleBuckets rs !! Event_GetType event = Some bucket →
  rulesNotifiedTo l (Evaluate h event rs).2.1
  = matchingRules h (mk_Context event) (rb_rules bucket)
    ≫= λ rule, replicate (registrations rs l) rule.
Proof.
  intros Hb. rewrite (Evaluate_bucket h event rs bucket Hb). cbn [fst snd].
  rewrite rulesNotifiedTo_app.
  assert (∀ fs : list string,
            rulesNotifiedTo l
              (fs ≫= λ field, NotifyDiscarderFound rs event field (Event_GetType event))
            = []) as Hnone.
  { intros fs. unfold rulesNotifiedTo. rewrite omap_bind_list. apply bind_nil_all.
    intros field. apply rulesNotifiedTo_NotifyDiscarderFound. }
  destruct (bool_decide _); [|rewrite Hnone]; rewrite app_nil_r;
    unfold rulesNotifiedTo; rewrite omap_bind_list;
    (induction (matchingRules _ _ _) as [|rule m IH]; cbn [mbind list_bind]; [done|]);
    (f_equal; [apply rulesNotifiedTo_NotifyRuleMatch | apply IH]).
Qed.

Lemma Evaluate_discardersNotifiedTo h event rs bucket l :
  eventRuleBuckets rs !! Event_GetType event = Some bucket →
  (Evaluate h event rs).2.2 = false →
  discardersNotifiedTo l (Evaluate h event rs).2.1
  = discarderFields h rs (mk_Context event) bucket
    ≫= λ field, replicate (registrations rs l) (field, Event_GetType event).
Proof.
  intros Hb. rewrite (Evaluate_bucket h event rs bucket Hb). cbn [fst snd].
  intros ->. rewrite discardersNotifiedTo_app.
  assert (discardersNotifiedTo l
            (matchingRules h (mk_Context event) (rb_rules bucket)
               ≫= λ rule, NotifyRuleMatch rs rule event) = []) as ->.
  { unfold discardersNotifiedTo. rewrite omap_bind_list. apply bind_nil_all.
    intros rule. apply discardersNotifiedTo_NotifyRuleMatch. }
  cbn [app]. unfold discardersNotifiedTo. rewrite omap_bind_list.
  induction (discarderFields _ _ _ _) as [|field fs IH]; cbn [mbind list_bind]; [done|].
  f_equal; [apply discardersNotifiedTo_NotifyDiscarderFound | apply IH].
Qed.

Lemma registrations_pos rs l : l ∈ listeners rs ↔ 0 < registrations rs l.
Proof.
  unfold registrations. induction (listeners rs) as [|l' ls IH]; cbn.
  - split; [by intros ?%elem_of_nil | lia].
  - rewrite elem_of_cons. destruct (decide (l' = l)) as [->|Hne].
    + rewrite bool_decide_eq_true_2 by done. cbn. split; [lia | by left].
    + rewrite bool_decide_eq_false_2 by done. rewrite <- IH.
      split; [by intros [?|?] | by right].
Qed.

Lemma elem_of_bind_replicate {A B : Type} (f : A → B) (n : nat) (l : list A) (y : B) :
  0 < n → y ∈ (l ≫= λ x, replicate n (f x)) ↔ ∃ x, x ∈ l ∧ y = f x.
Proof.
  intros Hn. rewrite list_elem_of_bind. split.
  - intros (x & Hy & Hx). apply elem_of_replicate in Hy as [-> _]. by exists x.
  - intros (x & Hx & ->). exists x. split; [|done].
    apply elem_of_replicate. split; [done | lia].
Qed.

(** X12. The discarder search of [Evaluate] and [IsDiscarder] agree: when
    no rule of the event's bucket matched, a registered listener is told that
    a field of the event's own type is a discarder exactly when the field is
    in the bucket's field list, is let through by [SupportedDiscarders], and
    [IsDiscarder] returns [(true, nil)] for it. *)
Theorem Evaluate_agrees_with_IsDiscarder h event rs bucket field l :
  eventRuleBuckets rs !! Event_GetType event = Some bucket →
  Event_GetFieldEventType event field = (Event_GetType event, None) →
  (Evaluate h event rs).2.2 = false →
  l ∈ listeners rs →
  (field, Event_GetType event) ∈ discardersNotifiedTo l (Evaluate h event rs).2.1
  ↔ field ∈ rb_fields bucket
    ∧ discarderSupported rs field = true
    ∧ (IsDiscarder h event field rs).2 = (true, None).
Proof.
  intros Hb Hres Hfalse Hl.
  rewrite (Evaluate_discardersNotifiedTo h event rs bucket l Hb Hfalse).
  rewrite (elem_of_bind_replicate (λ field, (field, Event_GetType event)))
    by (by apply registrations_pos).
  assert ((IsDiscarder h event field rs).2 = (true, None)
          ↔ Forall (partialFalse h (mk_Context event) field) (rb_rules bucket)) as ->.
  { unfold IsDiscarder. rewrite Hres, Hb. unfold ContextPool_Get. cbn [fst snd].
    apply IsDiscarder_rules_true. }
  rewrite discarderSupported_spec, <- elem_of_discarderFields. split.
  - by intros (f & Hf & [= <-]).
  - intros Hf. by exists field.
Qed.

(** X13. Every call [Evaluate] makes is on a registered listener and about
    the event evaluated.  A [RuleMatch] call is for a rule of the bucket of
    the event's type that evaluates to true, and then the result is true; an
    [EventDiscarderFound] call is for a field of that bucket with the event's
    type, and then the result is false. *)
Theorem Evaluate_calls_sound h event rs c :
  c ∈ (Evaluate h event rs).2.1 →
  ∃ bucket,
    eventRuleBuckets rs !! Event_GetType event = Some bucket
    ∧ match c with
      | RuleMatch l rule ev =>
        l ∈ listeners rs ∧ ev = event
        ∧ rule ∈ rb_rules bucket
        ∧ Evaluator_Eval (h !!! Rule_Rule rule) (mk_Context event) = true
        ∧ (Evaluate h event rs).2.2 = true
      | EventDiscarderFound l ev field eventType =>
        l ∈ listeners rs ∧ ev = event
        ∧ eventType = Event_GetType event
        ∧ field ∈ rb_fields bucket
        ∧ (Evaluate h event rs).2.2 = false
      end.
Proof.
  destruct (eventRuleBuckets rs !! Event_GetType event) as [bucket|] eqn:Hb.
  2:{ rewrite (Evaluate_no_bucket h event rs Hb). by intros ?%elem_of_nil. }
  rewrite (Evaluate_bucket h event rs bucket Hb). cbn [fst snd].
  intros Hc. exists bucket. split; [done|].
  apply elem_of_app in Hc as [Hc|Hc].
  - apply list_elem_of_bind in Hc as (rule & Hc & Hrule).
    unfold NotifyRuleMatch in Hc. apply list_elem_of_fmap in Hc as (l & -> & Hl).
    apply elem_of_List_filter in Hrule as Hr. destruct Hr as [Hin Hev].
    split; [done|]. split; [done|]. split; [done|]. split; [done|].
    apply bool_decide_eq_true. intros Hnil.
    rewrite Hnil in Hrule. by apply elem_of_nil in Hrule.
  - destruct (bool_decide _) eqn:Hres; [by apply elem_of_nil in Hc|].
    apply list_elem_of_bind in Hc as (field & Hc & Hfield).
    unfold NotifyDiscarderFound in Hc. apply list_elem_of_fmap in Hc as (l & -> & Hl).
    apply elem_of_discarderFields in Hfield as (Hin & _ & _). done.
Qed.

(** X14. [AddListener] registers the listener after the others and once
    more if it was there: each notification then ends with a call on it.  It
    does not change what [Evaluate] returns nor what the other listeners are
    told. *)
Theorem AddListener_appends h event rs l :
  (∀ rule, NotifyRuleMatch (AddListener l rs) rule event
           = NotifyRuleMatch rs rule event ++ [RuleMatch l rule event])
  ∧ (∀ field eventType,
       NotifyDiscarderFound (AddListener l rs) event field eventType
       = NotifyDiscarderFound rs event field eventType
         ++ [EventDiscarderFound l event field eventType])
  ∧ registrations (AddListener l rs) l = S (registrations rs l)
  ∧ (Evaluate h event (AddListener l rs)).2.2 = (Evaluate h event rs).2.2
  ∧ (∀ l', l' ≠ l →
           rulesNotifiedTo l' (Evaluate h event (AddListener l rs)).2.1
           = rulesNotifiedTo l' (Evaluate h event rs).2.1
           ∧ discardersNotifiedTo l' (Evaluate h event (AddListener l rs)).2.1
             = discardersNotifiedTo l' (Evaluate h event rs).2.1).
Proof.
  assert (∀ l', registrations (AddListener l rs) l'
                = registrations rs l' + (if decide (l = l') then 1 else 0)) as Hreg.
  { intros l'. unfold registrations, AddListener. cbn [listeners set_listeners].
    rewrite List.filter_app, length_app. cbn.
    destruct (decide (l = l')) as [->|Hne].
    - by rewrite bool_decide_eq_true_2.
    - by rewrite bool_decide_eq_false_2. }
  split; [|split; [|split; [|split]]].
  - intros rule. unfold NotifyRuleMatch, AddListener. cbn. by rewrite fmap_app.
  - intros field eventType. unfold NotifyDiscarderFound, AddListener. cbn.
    by rewrite fmap_app.
  - rewrite Hreg, decide_True by done. lia.
  - destruct (eventRuleBuckets rs !! Event_GetType event) as [bucket|] eqn:Hb.
    + rewrite (Evaluate_bucket h event rs bucket Hb).
      by rewrite (Evaluate_bucket h event (AddListener l rs) bucket Hb).
    + rewrite (Evaluate_no_bucket h event rs Hb).
      by rewrite (Evaluate_no_bucket h event (AddListener l rs) Hb).
  - intros l' Hne.
    destruct (eventRuleBuckets rs !! Event_GetType event) as [bucket|] eqn:Hb.
    + split.
      * rewrite (Evaluate_rulesNotifiedTo h event rs bucket l' Hb).
        rewrite (Evaluate_rulesNotifiedTo h event (AddListener l rs) bucket l' Hb).
        rewrite Hreg, decide_False by done. by rewrite Nat.add_0_r.
      * destruct ((Evaluate h event rs).2.2) eqn:Hres.
        -- revert Hres.
           rewrite (Evaluate_bucket h event rs bucket Hb).
           rewrite (Evaluate_bucket h event (AddListener l rs) bucket Hb).
           cbn [fst snd]. intros ->. rewrite !app_nil_r.
           unfold discardersNotifiedTo. rewrite !omap_bind_list.
           rewrite !bind_nil_all; [done|..]; intros rule;
             apply discardersNotifiedTo_NotifyRuleMatch.
        -- assert ((Evaluate h event (AddListener l rs)).2.2 = false) as Hres'.
           { revert Hres. rewrite (Evaluate_bucket h event rs bucket Hb).
             by rewrite (Evaluate_bucket h event (AddListener l rs) bucket Hb). }
           rewrite (Evaluate_discardersNotifiedTo h event rs bucket l' Hb Hres).
           rewrite (Evaluate_discardersNotifiedTo h event (AddListener l rs) bucket l'
                      Hb Hres').
           rewrite Hreg, decide_False by done. by rewrite Nat.add_0_r.
    + rewrite (Evaluate_no_bucket h event rs Hb).
      by rewrite (Evaluate_no_bucket h event (AddListener l rs) Hb).
Qed.

(** * Field values and partials *)

Lemma bind_nil_all_in {A B : Type} (f : A → list B) (l : list A) :
  (∀ x, x ∈ l → f x = []) → l ≫= f = [].
Proof.
  induction l as [|x l IH]; intros Hf; cbn; [done|].
  rewrite Hf by (by left). apply IH. intros y Hy. apply Hf. by right.
Qed.

Lemma length_bind {A B : Type} (f : A → list B) (l : list A) :
  length (l ≫= f) = sum_list ((λ x, length (f x)) <$> l).
Proof.
  induction l as [|x l IH]; [done|].
  change ((x :: l) ≫= f) with (f x ++ (l ≫= f)).
  rewrite length_app, IH. done.
Qed.

Section FieldValues.

Context `{FO : !FieldValueOps}.

Lemma GetFieldValues_foldl h field (rs : list Rule) (values : list FieldValue) :
  foldl (GetFieldValues_step h field) values rs
  = values ++ (rs ≫= λ rule, Rule_GetFieldValues (h !!! Rule_Rule rule) field).
Proof.
  revert values. induction rs as [|rule rest IH]; intros values; cbn.
  - by rewrite app_nil_r.
  - rewrite IH. unfold GetFieldValues_step.
    destruct (Rule_GetFieldValues (h !!! Rule_Rule rule) field) as [|v vs];
      cbn [length mbind list_bind app].
    + by rewrite bool_decide_eq_false_2 by lia.
    + rewrite bool_decide_eq_true_2 by lia. by rewrite <- app_assoc.
Qed.

(** X15. [GetFieldValues] returns the values of the field of the rules of
    the rule table, one rule after the other: a value is returned exactly
    when some rule of the table has it, the result is as long as the rules
    have values in all, and it is nil when no rule has a value for the
    field. *)
Theorem GetFieldValues_all h rs field :
  (∀ v, v ∈ GetFieldValues h rs field
        ↔ ∃ id rule, GetRules rs !! id = Some rule
                     ∧ v ∈ Rule_GetFieldValues (h !!! Rule_Rule rule) field)
  ∧ length (GetFieldValues h rs field)
    = sum_list ((λ rule, length (Rule_GetFieldValues (h !!! Rule_Rule rule) field))
                  <$> (map_to_list (rules rs)).*2)
  ∧ (GetFieldValues h rs field = []
     ↔ ∀ id rule, GetRules rs !! id = Some rule →
                  Rule_GetFieldValues (h !!! Rule_Rule rule) field = []).
Proof.
  unfold GetFieldValues, GetRules. rewrite GetFieldValues_foldl. cbn [app].
  assert (∀ rule, rule ∈ (map_to_list (rules rs)).*2
                  ↔ ∃ id, rules rs !! id = Some rule) as Hin.
  { intros rule. rewrite list_elem_of_fmap. split.
    - intros ([id r] & -> & Hr). apply elem_of_map_to_list in Hr. by exists id.
    - intros [id Hr]. exists (id, rule). split; [done|]. by apply elem_of_map_to_list. }
  split; [|split].
  - intros v. rewrite list_elem_of_bind. split.
    + intros (rule & Hv & [id Hr]%Hin). by exists id, rule.
    + intros (id & rule & Hr & Hv). exists rule. split; [done|]. apply Hin. by exists id.
  - apply length_bind.
  - split.
    + intros Hnil id rule Hr.
      assert (rule ∈ (map_to_list (rules rs)).*2) as Hrule by (apply Hin; by exists id).
      destruct (Rule_GetFieldValues (h !!! Rule_Rule rule) field) as [|v vs] eqn:Hv;
        [done|].
      assert (v ∈ ((map_to_list (rules rs)).*2
                     ≫= λ rule, Rule_GetFieldValues (h !!! Rule_Rule rule) field)) as Hel.
      { apply list_elem_of_bind. exists rule. split; [|done]. rewrite Hv. by left. }
      rewrite Hnil in Hel. by apply elem_of_nil in Hel.
    + intros Hall. apply bind_nil_all_in. intros rule [id Hr]%Hin. by eapply Hall.
Qed.

End FieldValues.

End Properties.

(** * The theorems at work on the sample binding *)

Lemma sample_st0_reachable : reachable sample_st0.
Proof.
  exact (reachable_AddListener ([], NewRuleSet sample_model (λ _, mkSampleEvent "" ∅) sample_opts)
           7 (reachable_NewRuleSet [] sample_model (λ _, mkSampleEvent "" ∅) sample_opts)).
Defined.

Lemma sample_loaded_reachable : reachable sample_loaded.
Proof. apply reachable_AddRules, sample_st0_reachable. Defined.

(** The event opens [/etc/passwd] for writing: both rules match, and the
    listener hears of both. *)
Example Evaluate_sample_match :
  let out := (Evaluate sample_loaded.1 (sample_open "/etc/passwd" "w") sample_loaded.2).2 in
  out.2 = true
  ∧ rd_ID ∘ Rule_Definition <$> rulesNotifiedTo 7 out.1 = ["r1"; "r3"]
  ∧ discardersNotifiedTo 7 out.1 = [].
Proof. vm_compute. done. Qed.

(** The event opens [/tmp/x]: no rule matches, and the file name is found to
    be a discarder. *)
Example Evaluate_sample_discarder :
  let out := (Evaluate sample_loaded.1 (sample_open "/tmp/x" "w") sample_loaded.2).2 in
  out.2 = false
  ∧ rulesNotifiedTo 7 out.1 = []
  ∧ discardersNotifiedTo 7 out.1 = [("open.filename", "open")].
Proof. vm_compute. done. Qed.

Lemma IsDiscarder_result_witness :
  (IsDiscarder sample_loaded.1 (sample_open "/tmp/x" "w") "open.filename" sample_loaded.2).2
  = (true, None)
  ∧ (IsDiscarder sample_loaded.1 (sample_open "/tmp/x" "w") "open.flags" sample_loaded.2).2
    = (false, Some (ErrEval "field not found")).
Proof.
  split.
  - refine (proj2 (proj1 (IsDiscarder_result sample_loaded.1 (sample_open "/tmp/x" "w")
                            "open.filename" sample_loaded.2)) _).
    split; [vm_compute; reflexivity|].
    exists (bucketFor sample_loaded.2 "open"). split; [vm_compute; reflexivity|].
    apply (bool_decide_unpack _). vm_compute. exact I.
  - pose proof (IsDiscarder_result sample_loaded.1 (sample_open "/tmp/x" "w") "open.flags"
                  sample_loaded.2) as (_ & _ & H).
    vm_compute in H. vm_compute.
    apply (H [] (mkRule 0 sample_passwd) [mkRule 1 sample_passwd_w]).
    + reflexivity.
    + constructor.
    + discriminate.
Defined.

Lemma Evaluate_discarders_witness :
  let calls :=
    (Evaluate sample_loaded.1 (sample_open "/tmp/x" "w") sample_loaded.2).2.1 in
  NoDup (discardersNotifiedTo 7 calls)
  ∧ (("open.filename", "open") ∈ discardersNotifiedTo 7 calls)
  ∧ (("open.flags", "open") ∉ discardersNotifiedTo 7 calls).
Proof.
  pose proof (Evaluate_discarders sample_loaded.1 (sample_open "/tmp/x" "w")
                sample_loaded.2 (bucketFor sample_loaded.2 "open")) as H.
  destruct H as (_ & _ & _ & H); [vm_compute; reflexivity|].
  destruct (H (inv_bucket_fields _ (reachable_inv _ sample_loaded_reachable) "open" _
                 ltac:(vm_compute; reflexivity))
              7 ltac:(vm_compute; reflexivity) ltac:(vm_compute; reflexivity))
    as [Hnd Hiff].
  split; [exact Hnd|]. split.
  - apply Hiff. apply (bool_decide_unpack _). vm_compute. exact I.
  - intros Hin. apply Hiff in Hin. revert Hin.
    apply (bool_decide_unpack _). vm_compute. exact I.
Defined.

Lemma AddRule_ID_conflicts_witness :
  AddRule sample_shadow (AddRule sample_passwd sample_st0).1
  = ((AddRule sample_passwd sample_st0).1,
     Err (ErrRuleLoad sample_shadow ErrDefinitionIDConflict))
  ∧ AddRule (sample_def "refresh_user_cache" "true") sample_st0
    = (sample_st0,
       Err (ErrRuleLoad (sample_def "refresh_user_cache" "true") ErrInternalIDConflict)).
Proof.
  split.
  - pose proof (AddRule_ID_conflicts sample_st0 sample_passwd sample_st0_reachable)
      as (_ & _ & _ & H).
    apply (H 0 sample_shadow); [vm_compute; reflexivity | reflexivity].
  - apply (AddRule_ID_conflicts sample_st0 (sample_def "refresh_user_cache" "true")
             sample_st0_reachable).
    apply (bool_decide_unpack _). vm_compute. exact I.
Defined.

Lemma AddRule_event_type_errors_witness :
  AddRule (sample_def "none" "true") sample_st0
  = (sample_st0, Err (ErrRuleLoad (sample_def "none" "true") ErrRuleWithoutEvent))
  ∧ AddRule (sample_def "two" "open.filename == x && exec.path == y") sample_st0
    = (sample_st0,
       Err (ErrRuleLoad (sample_def "two" "open.filename == x && exec.path == y")
              ErrRuleWithMultipleEvents))
  ∧ AddRule sample_passwd sample_exec_only
    = (sample_exec_only, Err (ErrRuleLoad sample_passwd ErrEventTypeNotEnabled)).
Proof.
  split; [|split].
  - refine (proj1 (proj1 (proj2 (AddRule_event_type_errors sample_st0
              (sample_def "none" "true") sample_st0_reachable _ _ _ _ _)) _)).
    all: first [ vm_compute; reflexivity
               | apply (bool_decide_unpack _); vm_compute; exact I ].
  - refine (proj1 (proj1 (proj2 (proj2 (AddRule_event_type_errors sample_st0
              (sample_def "two" "open.filename == x && exec.path == y")
              sample_st0_reachable _ _ _ _ _))) _)).
    all: first [ vm_compute; reflexivity
               | apply (bool_decide_unpack _); vm_compute; exact I
               | vm_compute; lia ].
  - refine (proj1 (proj2 (proj2 (proj2 (AddRule_event_type_errors sample_exec_only
              sample_passwd (reachable_NewRuleSet _ _ _ _) _ _ _ _ _))) "open" _ _ _)).
    all: first [ vm_compute; reflexivity
               | apply (bool_decide_unpack _); vm_compute; exact I ].
Defined.



Lemma fields_no_duplicates_witness :
  NoDup (fields (AddRule sample_passwd_w (AddRule sample_passwd sample_st0).1).1.2)
  ∧ fields (AddRule sample_passwd_w (AddRule sample_passwd sample_st0).1).1.2
    = ["open.filename"; "open.flags"].
Proof.
  pose proof (fields_no_duplicates (AddRule sample_passwd sample_st0).1 sample_passwd_w
                (reachable_AddRule _ _ sample_st0_reachable))
    as (_ & Hnd & (added & Heq & Hok & _) & _).
  split; [exact Hnd|].
  rewrite Heq, (proj1 (Hok 1 ltac:(vm_compute; reflexivity))).
  vm_compute. reflexivity.
Defined.

Lemma GetApprovers_best_effort_witness :
  let fieldCaps : gmap string (list string) :=
    {["open" := ["open.filename"]; "exec" := ["exec.path"]]} in
  (GetApprovers sample_loaded.1 sample_loaded.2 fieldCaps).1 !! "open"
  = Some {["open.filename" := []]}
  ∧ GetEventApprovers sample_loaded.1 sample_loaded.2 "exec" ["exec.path"]
    = (∅, Some (ErrNoEventTypeBucket "exec")).
Proof.
  intros fieldCaps.
  pose proof (GetApprovers_best_effort sample_loaded.1 sample_loaded.2 fieldCaps)
    as (_ & Hiff & Hnone).
  split.
  - apply Hiff. split; [vm_compute; eauto|].
    exists ["open.filename"]. split; vm_compute; reflexivity.
  - apply Hnone. vm_compute. reflexivity.
Defined.

Lemma AddPolicyVersion_key_witness :
  loadedPolicies (AddPolicyVersion "a_b" "2" (AddPolicyVersion "a.b" "1" sample_rs))
  = {["a_b" := "2"]}.
Proof.
  pose proof (AddPolicyVersion_key sample_rs "a.b" "1") as (_ & H & _).
  rewrite (proj1 (H "a_b" "2" eq_refl)).
  vm_compute. reflexivity.
Defined.

Lemma HasRulesForEventType_false_Evaluate_witness :
  (Evaluate sample_loaded.1 (mkSampleEvent "exec" ∅) sample_loaded.2).2 = ([], false).
Proof.
  apply (HasRulesForEventType_false_Evaluate sample_loaded (mkSampleEvent "exec" ∅)
           sample_loaded_reachable).
  vm_compute. reflexivity.
Defined.

Lemma reachable_rule_table_witness :
  "refresh_user_cache" ∉ ListRuleIDs sample_loaded.2.
Proof.
  apply (reachable_rule_table sample_loaded sample_loaded_reachable).
  apply (bool_decide_unpack _). vm_compute. exact I.
Defined.

Lemma loadedPolicies_keys_witness :
  dotFree "a_b" = true
  ∧ loadedPolicies (AddPolicyVersion "c.d" "2" (AddPolicyVersion "a.b" "1" sample_rs))
      !! "a_b" = Some "1".
Proof.
  pose proof (loadedPolicies_keys (sample_st0.1, AddPolicyVersion "a.b" "1" sample_rs)
                (reachable_AddPolicyVersion sample_st0 "a.b" "1" sample_st0_reachable))
    as (Hkeys & _ & Hother).
  split.
  - apply (Hkeys "a_b" "1"). vm_compute. reflexivity.
  - refine (eq_trans (Hother "c.d" "2" "a_b" _) _).
    + vm_compute. discriminate.
    + vm_compute. reflexivity.
Defined.

Lemma AddRule_registers_witness :
  HasRulesForEventType (AddRule sample_passwd sample_st0).1.2 "open" = true
  ∧ "open.filename" ∈ fields (AddRule sample_passwd sample_st0).1.2.
Proof.
  destruct (AddRule_registers sample_passwd sample_st0 0)
    as (_ & _ & _ & _ & _ & _ & et & bucket & Hets & _ & _ & _ & Hhas & _ & Hfields);
    [vm_compute; reflexivity|].
  vm_compute in Hets. injection Hets as <-.
  split; [exact Hhas|].
  apply Hfields. apply (bool_decide_unpack _). vm_compute. exact I.
Defined.

Lemma Evaluate_agrees_with_IsDiscarder_witness :
  ("open.filename", "open")
    ∈ discardersNotifiedTo 7
        (Evaluate sample_loaded.1 (sample_open "/tmp/x" "w") sample_loaded.2).2.1.
Proof.
  refine (proj2 (Evaluate_agrees_with_IsDiscarder sample_loaded.1
                   (sample_open "/tmp/x" "w") sample_loaded.2
                   (bucketFor sample_loaded.2 "open") "open.filename" 7 _ _ _ _) _).
  - vm_compute. reflexivity.
  - vm_compute. reflexivity.
  - vm_compute. reflexivity.
  - apply (bool_decide_unpack _). vm_compute. exact I.
  - split; [|split].
    + apply (bool_decide_unpack _). vm_compute. exact I.
    + vm_compute. reflexivity.
    + vm_compute. reflexivity.
Defined.

Lemma Evaluate_calls_sound_witness :
  (Evaluate sample_loaded.1 (sample_open "/etc/passwd" "r") sample_loaded.2).2.2 = true.
Proof.
  destruct (Evaluate_calls_sound (ET := sample_types) sample_loaded.1
              (sample_open "/etc/passwd" "r")
              sample_loaded.2
              (@RuleMatch sample_types 7 (mkRule 0 sample_passwd)
                 (sample_open "/etc/passwd" "r")))
    as (bucket & _ & _ & _ & _ & _ & Hres).
  - vm_compute. left.
  - exact Hres.
Defined.
